(** * 3D lidar scanner: acquisition loop and point-cloud reconstruction

    Shallow embedding of
    - [convertAdjust.py] and [convertAdjust_et_tu_lidar.py]: the two
      reconstruction variants ([convert_to_cartesian], [distance_to_color],
      [load_csv_data], and the lines [generate_ply] writes);
    - [tkinter_da_la.py]: the scan script (arming, the per-step sampling
      loop with its [seen] set, the [try]/[finally] cleanup);
    - [lidar-example.py]: the polling example.

    Numbers.  Python floats are modelled by the real numbers of the Standard
    Library: rounding error, infinities and NaN are outside the model.  What
    Python itself decides about a float operation is kept: a division whose
    divisor is zero raises [ZeroDivisionError], [int] truncates toward zero,
    and [min]/[max] return their first argument unless a later one compares
    strictly smaller/larger.  [float] on a CSV field is a parameter
    [float_of_string] of the loader, [None] standing for its [ValueError]. *)

From Stdlib Require Import Reals Lra Lia ZArith List String Ascii.
From Stdlib Require Import DecimalString.
From stdpp Require Import base decidable option list gmap sets strings.

(** ** Python exceptions and the result of a call *)

Module Py.

Inductive exn : Type :=
| ValueError (msg : string)
| IndexError
| ZeroDivisionError
| StopIteration
| KeyboardInterrupt
| SystemExit.

(** A call either returns a value or raises. *)
Inductive result (A : Type) : Type :=
| Ret (a : A)
| Raise (e : exn).
Arguments Ret {A} a.
Arguments Raise {A} e.

Definition bind {A B} (m : result A) (k : A -> result B) : result B :=
  match m with
  | Ret a => k a
  | Raise e => Raise e
  end.

Definition returns {A} (m : result A) : Prop := exists a, m = Ret a.

Definition is_ValueError (e : exn) : bool :=
  match e with ValueError _ => true | _ => false end.

(** [seq[i]] for a non-negative index: [IndexError] past the end. *)
Definition getitem {A} (l : list A) (i : nat) : result A :=
  match l !! i with
  | Some a => Ret a
  | None => Raise IndexError
  end.

End Py.

Import Py.

#[global] Instance result_ret : MRet Py.result := @Py.Ret.
#[global] Instance result_bind : MBind Py.result := fun A B k m => Py.bind m k.

(** ** The [math] functions and builtins the sources call *)

Module PyNum.
Local Open Scope R_scope.

#[global] Instance R_eq_dec : EqDecision R := Req_dec_T.

(** [math.radians(x)] is [x * (pi / 180)]. *)
Definition radians (x : R) : R := x * (PI / 180).

(** [a / b] on floats. *)
Definition truediv (a b : R) : result R :=
  if Req_dec_T b 0 then Raise ZeroDivisionError else Ret (a / b).

(** [min(a, b)]: the first argument, unless the second is strictly smaller. *)
Definition py_min (a b : R) : R := if Rlt_dec b a then b else a.

(** [max(a, b)]: the first argument, unless the second is strictly larger. *)
Definition py_max (a b : R) : R := if Rlt_dec a b then b else a.

(** [int(x)]: truncation toward zero. *)
Definition int (x : R) : Z :=
  if Rle_dec 0 x then Int_part x else (- Int_part (- x))%Z.

(** [min(l)] and [max(l)]: [ValueError] on an empty list, otherwise a scan
    from the first element that keeps the current value unless the next one
    is strictly smaller (larger). *)
Definition min_list (l : list R) : result R :=
  match l with
  | [] => Raise (ValueError "min() arg is an empty sequence")
  | d0 :: ds => Ret (fold_left py_min ds d0)
  end.

Definition max_list (l : list R) : result R :=
  match l with
  | [] => Raise (ValueError "max() arg is an empty sequence")
  | d0 :: ds => Ret (fold_left py_max ds d0)
  end.

End PyNum.

Import PyNum.

(** ** Text shared by the two reconstruction variants

    [distance_to_color] is the same text in [convertAdjust.py] and in
    [convertAdjust_et_tu_lidar.py]; [load_csv_data] differs only in the
    [clockwise] argument the second file hands on to
    [convert_to_cartesian].  Both are embedded once, [load_csv_data] over the
    conversion [convert] it calls. *)

Module Reconstruction.
Local Open Scope R_scope.

Definition point : Type := R * R * R.
Definition colored_point : Type := R * R * R * Z * Z * Z.

(** A CSV file as [csv.reader] yields it: one list of fields per line. *)
Definition csv_row : Type := list string.

Definition distance_to_color
    (distance min_distance max_distance : R) : result (Z * Z * Z) :=
  normalized ← truediv (distance - min_distance) (max_distance - min_distance);
  let normalized := py_max 0 (py_min 1 normalized) in
  let r := int (255 * normalized) in
  let g := int (255 * (1 - Rabs (normalized - 0.5) * 2)) in
  let b := int (255 * (1 - normalized)) in
  mret (r, g, b).

Section Loader.

(** [float(s)] on a field: [None] stands for the [ValueError] it raises. *)
Variable float_of_string : string -> option R.
Variable convert : R -> R -> R -> point.

Definition float (s : string) : result R :=
  match float_of_string s with
  | Some x => Ret x
  | None => Raise (ValueError "could not convert string to float")
  end.

(** The body of the [try] in the row loop. *)
Definition row_body (row : csv_row) : result (point * R) :=
  s ← getitem row 1; angle ← float s;
  s ← getitem row 2; distance ← float s;
  s ← getitem row 3; rotation ← float s;
  let p := convert angle distance rotation in
  mret (p, distance).

(** [for row in csvreader: try: ... except ValueError: print(...)], with the
    two lists the loop appends to. *)
Fixpoint read_rows (rows : list csv_row) (points : list point)
    (distances : list R) : result (list point * list R) :=
  match rows with
  | [] => Ret (points, distances)
  | row :: rows' =>
      match row_body row with
      | Ret (p, distance) =>
          read_rows rows' (points ++ [p]) (distances ++ [distance])
      | Raise e =>
          if is_ValueError e then read_rows rows' points distances
          else Raise e
      end
  end.

Definition color_point (min_distance max_distance : R)
    (pd : point * R) : result colored_point :=
  let '((x, y, z), distance) := pd in
  '(r, g, b) ← distance_to_color distance min_distance max_distance;
  mret (x, y, z, r, g, b).

Definition load_csv_data (file : list csv_row)
    : result (list colored_point * list point) :=
  match file with
  | [] => Raise StopIteration
  | _header :: rows =>
      '(points, distances) ← read_rows rows [] [];
      match points with
      | [] => Raise (ValueError "No valid points found in the CSV file.")
      | _ :: _ =>
          min_distance ← min_list distances;
          max_distance ← max_list distances;
          colored_points ←
            mapM (color_point min_distance max_distance) (zip points distances);
          mret (colored_points, points)
      end
  end.

End Loader.

End Reconstruction.

(** ** [convertAdjust.py] *)

Module ConvertAdjust.
Local Open Scope R_scope.

Definition convert_to_cartesian (angle distance rotation : R) : R * R * R :=
  let angle_rad := radians angle in
  let y := distance * sin angle_rad in
  let z := distance * cos angle_rad in
  let rotation_rad := radians rotation in
  let x := z * sin rotation_rad in
  let z := z * cos rotation_rad in
  let x := - x in
  (x, y, z).

Definition distance_to_color := Reconstruction.distance_to_color.

Definition load_csv_data (float_of_string : string -> option R)
    (file : list Reconstruction.csv_row) :=
  Reconstruction.load_csv_data float_of_string convert_to_cartesian file.

End ConvertAdjust.

(** ** [convertAdjust_et_tu_lidar.py] *)

Module ConvertAdjustEtTuLidar.
Local Open Scope R_scope.

Definition convert_to_cartesian
    (angle distance rotation : R) (clockwise : bool) : R * R * R :=
  let angle_rad := radians angle in
  let y := distance * sin angle_rad in
  let z := distance * cos angle_rad in
  let rotation_rad := radians rotation in
  if clockwise then
    let x := z * sin rotation_rad in
    let z := z * cos rotation_rad in
    let x := - x in
    (x, y, z)
  else
    let x := z * sin (- rotation_rad) in
    let z := z * cos (- rotation_rad) in
    let x := - x in
    (x, y, z).

Definition distance_to_color := Reconstruction.distance_to_color.

Definition load_csv_data (float_of_string : string -> option R)
    (file : list Reconstruction.csv_row) (clockwise : bool) :=
  Reconstruction.load_csv_data float_of_string
    (fun angle distance rotation =>
       convert_to_cartesian angle distance rotation clockwise)
    file.

End ConvertAdjustEtTuLidar.

(** ** [generate_ply], the same text in both reconstruction files

    The file is modelled by the strings handed to [ply_file.write], in
    order.  How Python prints a float ([f"{x}"]) is a parameter
    [str_float]; integers are printed in decimal. *)

Module Mesh.
Local Open Scope string_scope.

Definition newline : string := String (ascii_of_nat 10) EmptyString.

(** [f"{n}"] for an [int]. *)
Definition str_int (n : Z) : string := NilZero.string_of_int (Z.to_int n).

Section Writer.
Variable str_float : R -> string.

Definition ply_header (count : nat) : list string :=
  [ "ply" ++ newline;
    "format ascii 1.0" ++ newline;
    "element vertex " ++ str_int (Z.of_nat count) ++ newline;
    "property float x" ++ newline;
    "property float y" ++ newline;
    "property float z" ++ newline;
    "property uchar red" ++ newline;
    "property uchar green" ++ newline;
    "property uchar blue" ++ newline;
    "end_header" ++ newline ].

Definition ply_vertex (point : Reconstruction.colored_point) : string :=
  let '(x, y, z, r, g, b) := point in
  str_float x ++ " " ++ str_float y ++ " " ++ str_float z ++ " "
  ++ str_int r ++ " " ++ str_int g ++ " " ++ str_int b ++ newline.

Definition generate_ply (points : list Reconstruction.colored_point)
    : list string :=
  ply_header (length points) ++ map ply_vertex points.

End Writer.

End Mesh.

(** ** [tkinter_da_la.py]: the scan script

    The script talks to three collaborators: the lidar driver, the serial
    port of the motor and the CSV writer.  A run is modelled by the sequence
    of calls it makes to them ([action]), newest first, and by an
    environment [env] that answers the calls from the history so far and
    decides when the user's interrupt arrives.  [KeyboardInterrupt] is
    delivered at most once, in place of the next call.  Console output and
    the reply of the motor, which only feeds a console message, are not
    modelled. *)

Module Scan.
Local Open Scope R_scope.

Inductive action : Type :=
| LidarConnect
| LidarStartScan
| LidarAvailable
| LidarGetData
| LidarStopScan
| LidarDisconnect
| MotorWrite (cmd : string)
| MotorReadline
| Sleep (ms : nat)
| CsvOpen
| CsvWriteHeader
| CsvWriteRow (quality : Z) (angle : nat) (distance : Z) (rotation : R)
| CsvClose.

Record env : Type := {
  connect_ok : bool;                    (* lidar.connect() *)
  available : list action -> bool;      (* lidar.available *)
  get_data : list action -> list Z;     (* lidar.get_data() *)
  out_of_range : Z;                     (* lidar.out_of_range *)
  interrupt : list action -> bool       (* Ctrl-C arrives now *)
}.

Record world : Type := {
  events : list action;                 (* calls made so far, newest first *)
  pending : bool                        (* the interrupt is still to come *)
}.

Definition start : world := {| events := []; pending := true |}.

(** A statement: it returns, raises, or is still polling when the bound on
    the iterations of a [while] loop is reached ([None]). *)
Definition M (A : Type) : Type := world -> option (result A * world).

#[global] Instance M_ret : MRet M := fun A a w => Some (Ret a, w).

#[global] Instance M_bind : MBind M := fun A B k m w =>
  match m w with
  | Some (Ret a, w') => k a w'
  | Some (Raise e, w') => Some (Raise e, w')
  | None => None
  end.

Definition raise {A} (e : exn) : M A := fun w => Some (Raise e, w).

Definition lift {A} (r : result A) : M A := fun w => Some (r, w).

Definition still_polling {A} : M A := fun _ => None.

(** [try: body finally: fin] *)
Definition try_finally {A} (body : M A) (fin : M unit) : M A := fun w =>
  match body w with
  | Some (r, w') =>
      match fin w' with
      | Some (Ret _, w'') => Some (r, w'')
      | Some (Raise e, w'') => Some (Raise e, w'')
      | None => None
      end
  | None => None
  end.

(** The configuration constants of the script. *)
Definition steps : nat := 400.
Definition step_angle : R := 180 / INR steps.
Definition scans_per_step : nat := 2.

Section Script.
Variable E : env.

(** One call to a collaborator, unless the interrupt arrives first. *)
Definition act (a : action) : M unit := fun w =>
  if pending w && interrupt E (events w)
  then Some (Raise KeyboardInterrupt, {| events := events w; pending := false |})
  else Some (Ret tt, {| events := a :: events w; pending := pending w |}).

(** The answer of the environment to the call just made. *)
Definition ask {A} (answer : list action -> A) : M A := fun w =>
  Some (Ret (answer (events w)), w).

Definition send_motor_cmd (cmd : string) : M unit :=
  act (MotorWrite cmd);;
  act (Sleep 50);;
  act MotorReadline.

(** [for angle in range(180)] over one reading [data], with the set [seen]
    of the step. *)
Fixpoint sweep (rotation_deg : R) (data : list Z) (angles : list nat)
    (seen : gset (nat * Z)) : M (gset (nat * Z)) :=
  match angles with
  | [] => mret seen
  | angle :: angles' =>
      distance ← lift (getitem data angle);
      if decide (distance = out_of_range E)
      then sweep rotation_deg data angles' seen
      else
        let measurement_id := (angle, distance) in
        if decide (measurement_id ∈ seen)
        then sweep rotation_deg data angles' seen
        else
          let seen := {[measurement_id]} ∪ seen in
          act (CsvWriteRow 1 angle distance rotation_deg);;
          sweep rotation_deg data angles' seen
  end.

(** [while scans_collected < scans_per_step], at most [fuel] iterations. *)
Fixpoint sample (fuel : nat) (rotation_deg : R) (seen : gset (nat * Z))
    (scans_collected : nat) : M unit :=
  if (scans_collected <? scans_per_step)%nat then
    match fuel with
    | O => still_polling
    | S fuel' =>
        act LidarAvailable;;
        is_available ← ask (available E);
        if negb is_available then
          act (Sleep 10);;
          sample fuel' rotation_deg seen scans_collected
        else
          act LidarGetData;;
          data ← ask (get_data E);
          seen ← sweep rotation_deg data (seq 0 180) seen;
          sample fuel' rotation_deg seen (S scans_collected)
    end
  else mret tt.

(** The body of [for step in range(steps)]. *)
Definition scan_step (fuel : nat) (step : nat) : M unit :=
  let rotation_deg := INR step * step_angle in
  sample fuel rotation_deg ∅ 0%nat;;
  send_motor_cmd "C";;
  act (Sleep 50).

Fixpoint scan_steps (fuel : nat) (range : list nat) : M unit :=
  match range with
  | [] => mret tt
  | step :: range' => scan_step fuel step;; scan_steps fuel range'
  end.

Definition scan_loop (fuel : nat) : M unit := scan_steps fuel (seq 0 steps).

(** The [finally] suite. *)
Definition cleanup : M unit :=
  act LidarStopScan;;
  act LidarDisconnect;;
  send_motor_cmd "D";;
  act CsvClose.

(** Everything before the [try]. *)
Definition setup : M unit :=
  act LidarConnect;;
  (if connect_ok E then mret tt else raise SystemExit);;
  act LidarStartScan;;
  act (Sleep 2000);;
  send_motor_cmd "R";;
  act CsvOpen;;
  act CsvWriteHeader.

Definition script (fuel : nat) : M unit :=
  setup;;
  try_finally (scan_loop fuel) cleanup.

End Script.

(** The [(angle, distance)] pairs among a list of calls, and the calls of
    the [finally] suite, newest first. *)
Definition pair_of (a : action) : option (nat * Z) :=
  match a with
  | CsvWriteRow _ angle distance _ => Some (angle, distance)
  | _ => None
  end.

Definition pairs_of (l : list action) : list (nat * Z) := omap pair_of l.



(** A statement is [sound] for a property [P] of calls when every call it
    adds to the history satisfies [P], the interrupt it may raise is the one
    the environment delivered, and it never re-arms the interrupt. *)
Definition sound {A} (P : action -> Prop) (m : M A) : Prop :=
  forall w r w', m w = Some (r, w') ->
    (exists new, events w' = new ++ events w /\ Forall P new)
    /\ (r = Raise KeyboardInterrupt -> pending w' = false)
    /\ (pending w = false -> pending w' = false).

(** The samples one reading can contribute: for every angle of the sweep,
    in order, the pair of the angle and its reading unless the reading is
    the out-of-range value. *)
Definition valid_pair (oor : Z) (data : list Z) (angle : nat)
    : option (nat * Z) :=
  match data !! angle with
  | Some distance =>
      if decide (distance = oor) then None else Some (angle, distance)
  | None => None
  end.

Definition valid_pairs (oor : Z) (data : list Z) (angles : list nat)
    : list (nat * Z) :=
  omap (valid_pair oor data) angles.

(** A row written to the log never carries the sensor's out-of-range
    reading. *)
Definition not_sentinel_row (E : env) (a : action) : Prop :=
  match a with
  | CsvWriteRow _ _ distance _ => distance <> out_of_range E
  | _ => True
  end.

(** The calls the scan loop makes, and the environments that do not
    interrupt right after one of them. *)
Definition loop_call (a : action) : bool :=
  match a with
  | LidarAvailable | LidarGetData | Sleep _ | MotorReadline
  | CsvWriteRow _ _ _ _ => true
  | MotorWrite cmd => String.eqb cmd "C"
  | _ => false
  end.

Definition loop_event (E : env) (a : action) : Prop :=
  loop_call a = true /\ not_sentinel_row E a.

Definition loop_quiet (E : env) : Prop :=
  forall a history, loop_call a = true -> interrupt E (a :: history) = false.

(** No interrupt is delivered in place of the next call. *)
Definition calm (E : env) (w : world) : Prop :=
  pending w = false \/ interrupt E (events w) = false.


(** *** Two environments to run the script in

    In both the sensor always has a reading ready, 180 times 100 mm.  In the
    first the user never interrupts; in the second Ctrl-C arrives while the
    disarm command is in flight, right after [motor.write('D')]. *)
Definition steady : env := {|
  connect_ok := true;
  available := fun _ => true;
  get_data := fun _ => repeat 100%Z 180;
  out_of_range := 32768%Z;
  interrupt := fun _ => false
|}.


(** Ctrl-C arrives while the first step command is in flight, right after
    [motor.write('C')]. *)
Definition ctrl_c_during_step : env := {|
  connect_ok := true;
  available := fun _ => true;
  get_data := fun _ => repeat 100%Z 180;
  out_of_range := 32768%Z;
  interrupt := fun history =>
    match history with
    | MotorWrite "C" :: _ => true
    | _ => false
    end
|}.

(** The state in which the [try] is entered when nothing went wrong. *)
Definition armed : world := {|
  events := [CsvWriteHeader; CsvOpen; MotorReadline; Sleep 50; MotorWrite "R";
             Sleep 2000; LidarStartScan; LidarConnect];
  pending := true
|}.

(** *** Calls by the part of the script that makes them *)

Definition setup_call (a : action) : bool :=
  match a with
  | LidarConnect | LidarStartScan | Sleep _ | MotorReadline | CsvOpen
  | CsvWriteHeader => true
  | MotorWrite cmd => String.eqb cmd "R"
  | _ => false
  end.

Definition cleanup_call (a : action) : bool :=
  match a with
  | LidarStopScan | LidarDisconnect | Sleep _ | MotorReadline | CsvClose => true
  | MotorWrite cmd => String.eqb cmd "D"
  | _ => false
  end.

Definition is_step_cmd (a : action) : bool :=
  match a with
  | MotorWrite cmd => String.eqb cmd "C"
  | _ => false
  end.

(** How many times the stage was told to advance. *)
Definition step_cmds (l : list action) : nat :=
  length (filter (fun a => is_step_cmd a = true) l).

(** A row of the log as the loop writes it: quality 1, an angle of the half
    sweep, and the rotation of one of the steps, which lies in [0, 180). *)
Definition row_of_scan (a : action) : Prop :=
  match a with
  | CsvWriteRow quality angle _ rotation =>
      quality = 1%Z /\ (angle < 180)%nat
      /\ exists step, (step < steps)%nat
                      /\ rotation = INR step * step_angle
                      /\ 0 <= rotation < 180
  | _ => True
  end.

(** The rotation tags follow the stage: read in the order of the calls,
    every row carries [step_angle] times the number of step commands sent
    before it, counting from [n]. *)
Fixpoint synced_from (n : nat) (chronological : list action) : Prop :=
  match chronological with
  | [] => True
  | a :: rest =>
      match a with
      | CsvWriteRow _ _ _ rotation =>
          rotation = INR n * step_angle /\ synced_from n rest
      | MotorWrite cmd =>
          if String.eqb cmd "C" then synced_from (S n) rest
          else synced_from n rest
      | _ => synced_from n rest
      end
  end.

(** The sensor never has a reading and the user never interrupts. *)
Definition starved : env := {|
  connect_ok := true;
  available := fun _ => false;
  get_data := fun _ => [];
  out_of_range := 32768%Z;
  interrupt := fun _ => false
|}.

(** Ctrl-C arrives while the motor is being armed, right after
    [motor.write('R')]. *)
Definition ctrl_c_while_arming : env := {|
  connect_ok := true;
  available := fun _ => true;
  get_data := fun _ => repeat 100%Z 180;
  out_of_range := 32768%Z;
  interrupt := fun history =>
    match history with
    | MotorWrite "R" :: _ => true
    | _ => false
    end
|}.

End Scan.

(** ** [lidar-example.py]

    The driver example polls the sensor until the user interrupts it, then
    stops the scan and disconnects.  It shares the collaborators, and so the
    calls and the environments, of the scan script. *)

Module LidarExample.
Import Scan.

(** [try: body except KeyboardInterrupt: handler] *)
Definition except_KeyboardInterrupt (body handler : M unit) : M unit := fun w =>
  match body w with
  | Some (Raise KeyboardInterrupt, w') => handler w'
  | outcome => outcome
  end.

Section Script.
Variable E : env.

(** [while True], at most [fuel] iterations. *)
Fixpoint poll (fuel : nat) : M unit :=
  match fuel with
  | O => still_polling
  | S fuel' =>
      act E LidarAvailable;;
      is_available ← ask (available E);
      (if is_available : bool then
         act E LidarGetData;;
         distances ← ask (get_data E);
         mret tt
       else mret tt);;
      act E (Sleep 100);;
      poll fuel'
  end.

Definition script (fuel : nat) : M unit :=
  act E LidarConnect;;
  act E LidarStartScan;;
  except_KeyboardInterrupt (poll fuel) (mret tt);;
  act E LidarStopScan;;
  act E LidarDisconnect.

End Script.



End LidarExample.

(** ** Running the loader on concrete logs

    [float_of_digits] is [float] on the fields the examples below use:
    an unsigned string of decimal digits is its value, any other text used
    there (empty, alphabetic) is rejected, as Python's [float] rejects it. *)

Definition digit_of_ascii (c : ascii) : option Z :=
  let n := Z.of_N (N_of_ascii c) in
  if ((48 <=? n) && (n <=? 57))%Z then Some (n - 48)%Z else None.

Fixpoint digits_value (acc : Z) (s : string) : option Z :=
  match s with
  | EmptyString => Some acc
  | String c s' =>
      match digit_of_ascii c with
      | Some d => digits_value (10 * acc + d)%Z s'
      | None => None
      end
  end.

Definition float_of_digits (s : string) : option R :=
  match s with
  | EmptyString => None
  | _ => IZR <$> digits_value 0 s
  end.

(** Sample logs for the examples: one with a row at the driver's
    out-of-range reading 32768, one with only that row, one with a single
    ordinary row, one with a row whose angle is not a number, one with a
    two-field row whose angle is not a number, one with a two-field row. *)
Definition header : Reconstruction.csv_row :=
  ["Quality"; "Angle (degrees)"; "Distance (mm)"; "Rotation"]%string.

Definition sentinel_log : list Reconstruction.csv_row :=
  [header; ["1"; "0"; "32768"; "0"]; ["1"; "0"; "1000"; "0"]]%string.

Definition all_sentinel_log : list Reconstruction.csv_row :=
  [header; ["1"; "0"; "32768"; "0"]]%string.

Definition single_row_log : list Reconstruction.csv_row :=
  [header; ["1"; "90"; "1000"; "0"]]%string.

Definition malformed_log : list Reconstruction.csv_row :=
  [header; ["1"; "abc"; "5"; "0"]; ["1"; "0"; "1000"; "0"];
   ["1"; "0"; "2000"; "0"]]%string.

Definition short_malformed_log : list Reconstruction.csv_row :=
  [header; ["1"; "abc"]; ["1"; "0"; "1000"; "0"]; ["1"; "0"; "2000"; "0"]]%string.

Definition short_log : list Reconstruction.csv_row :=
  [header; ["1"; "90"]]%string.

(** ** The ColorMapper as the specification words it

    [clamp] and rounding to a nearest integer, for the comparison with
    [distance_to_color].  [nearest_integer] is a relation so that it does not
    commit to a rule for ties. *)

Module ColorSpec.
Local Open Scope R_scope.





Definition channel (n : Z) : Prop := (0 <= n <= 255)%Z.

End ColorSpec.

(** ** Rows of a sample log, as the specification classifies them *)

Module LogSpec.
Local Open Scope R_scope.

Section Rows.
Variable float_of_string : string -> option R.

(** Field [i] is present and fails numeric parsing. *)
Definition field_fails (row : Reconstruction.csv_row) (i : nat) : bool :=
  match row !! i with
  | Some s => match float_of_string s with Some _ => false | None => true end
  | None => false
  end.

(** MalformedRow: the angle, distance or rotation field fails numeric
    parsing. *)
Definition malformed (row : Reconstruction.csv_row) : bool :=
  field_fails row 1 || field_fails row 2 || field_fails row 3.

(** The sample [(angle, distance, rotation)] of a row whose three fields are
    present and parse. *)
Definition sample_of (row : Reconstruction.csv_row) : option (R * R * R) :=
  s1 ← row !! 1%nat; angle ← float_of_string s1;
  s2 ← row !! 2%nat; distance ← float_of_string s2;
  s3 ← row !! 3%nat; rotation ← float_of_string s3;
  Some (angle, distance, rotation).

Definition samples_of (rows : list Reconstruction.csv_row) : list (R * R * R) :=
  omap sample_of rows.

(** No row of the log is short with all its present fields parsing. *)
Definition well_shaped (rows : list Reconstruction.csv_row) : Prop :=
  forall row, row ∈ rows -> malformed row = false -> (4 <= length row)%nat.

Definition distance_of (s : R * R * R) : R := snd (fst s).

(** The position the reconstruction gives a sample, for the conversion
    [convert] of the variant. *)
Definition convert_sample (convert : R -> R -> R -> Reconstruction.point)
    (s : R * R * R) : Reconstruction.point :=
  let '(angle, distance, rotation) := s in convert angle distance rotation.

(** The position of a colored point. *)
Definition position (cp : Reconstruction.colored_point) : Reconstruction.point :=
  let '(x, y, z, _, _, _) := cp in (x, y, z).

End Rows.


(** The message of the error [load_csv_data] raises on an empty input. *)
Definition no_valid_points : exn :=
  ValueError "No valid points found in the CSV file.".

End LogSpec.

(** * Properties *)

(** ** Arithmetic of the builtins *)

Section ResultMonad.
Context {A B : Type}.

Lemma bind_Ret (a : A) (k : A -> result B) : (Ret a ≫= k) = k a.
Proof. reflexivity. Qed.

Lemma bind_Raise (e : exn) (k : A -> result B) : (Raise e ≫= k) = Raise e.
Proof. reflexivity. Qed.

End ResultMonad.

Section Builtins.
Local Open Scope R_scope.

Lemma radians_0 : radians 0 = 0.
Proof. unfold radians. lra. Qed.

Lemma truediv_zero a b : b = 0 -> truediv a b = Raise ZeroDivisionError.
Proof.
  intros ->. unfold truediv. destruct (Req_dec_T 0 0) as [_|H]; [reflexivity|].
  exfalso. apply H. reflexivity.
Qed.

Lemma truediv_nonzero a b : b <> 0 -> truediv a b = Ret (a / b).
Proof.
  intros Hb. unfold truediv. destruct (Req_dec_T b 0); [contradiction|reflexivity].
Qed.

(** Python's [max(0, min(1, x))] is the clamp of [x] to the unit interval. *)
Lemma py_clamp_Rmax_Rmin x : py_max 0 (py_min 1 x) = Rmax 0 (Rmin 1 x).
Proof.
  unfold py_max, py_min, Rmax, Rmin.
  destruct (Rlt_dec x 1), (Rle_dec 1 x); try lra.
  - destruct (Rlt_dec 0 x), (Rle_dec 0 x); lra.
  - destruct (Rlt_dec 0 1), (Rle_dec 0 1); lra.
Qed.

Lemma py_clamp_range x : 0 <= py_max 0 (py_min 1 x) <= 1.
Proof.
  unfold py_max, py_min.
  destruct (Rlt_dec x 1).
  - destruct (Rlt_dec 0 x); lra.
  - destruct (Rlt_dec 0 1); lra.
Qed.

Lemma py_min_bounds a b :
  py_min a b <= a /\ py_min a b <= b /\ (py_min a b = a \/ py_min a b = b).
Proof. unfold py_min. destruct (Rlt_dec b a); lra. Qed.

Lemma py_max_bounds a b :
  a <= py_max a b /\ b <= py_max a b /\ (py_max a b = a \/ py_max a b = b).
Proof. unfold py_max. destruct (Rlt_dec a b); lra. Qed.

(** [int] at a non-negative argument is its integer part. *)
Lemma int_nonneg x z : IZR z <= x < IZR z + 1 -> 0 <= x -> int x = z.
Proof.
  intros [Hlo Hhi] Hx. unfold int.
  destruct (Rle_dec 0 x) as [_|Hn]; [|contradiction].
  symmetry. apply Int_part_spec. lra.
Qed.

Lemma int_range x : 0 <= x <= 255 -> (0 <= int x <= 255)%Z.
Proof.
  intros [Hlo Hhi]. unfold int.
  destruct (Rle_dec 0 x) as [_|Hn]; [|contradiction].
  destruct (base_Int_part x) as [Hle Hgt].
  split.
  - apply le_IZR. apply Rnot_lt_le. intros Hneg.
    assert (Hz : (Int_part x <= -1)%Z).
    { assert (Int_part x < 0)%Z by (apply lt_IZR; lra). lia. }
    apply IZR_le in Hz. lra.
  - apply le_IZR. lra.
Qed.

End Builtins.

(** ** CoordinateTransformer *)

Section CoordinateTransform.
Local Open Scope R_scope.

(** C1. With clockwise chirality the transform returns
    [x = -(distance * cos angle * sin rotation)], [y = distance * sin angle],
    [z = distance * cos angle * cos rotation] (angles in degrees, converted
    with [math.radians]), in both source files; in particular every
    [d >= 0] at angle 0 and rotation 0 is mapped to [(0, 0, d)]. *)
Theorem transform_clockwise_formula :
  (forall angle distance rotation,
     ConvertAdjustEtTuLidar.convert_to_cartesian angle distance rotation true
     = (- (distance * cos (radians angle) * sin (radians rotation)),
        distance * sin (radians angle),
        distance * cos (radians angle) * cos (radians rotation))
     /\ ConvertAdjust.convert_to_cartesian angle distance rotation
     = (- (distance * cos (radians angle) * sin (radians rotation)),
        distance * sin (radians angle),
        distance * cos (radians angle) * cos (radians rotation)))
  /\ (forall d, 0 <= d ->
        ConvertAdjustEtTuLidar.convert_to_cartesian 0 d 0 true = (0, 0, d)
        /\ ConvertAdjust.convert_to_cartesian 0 d 0 = (0, 0, d)).
Proof.
  split.
  - intros angle distance rotation. split; reflexivity.
  - intros d _.
    unfold ConvertAdjustEtTuLidar.convert_to_cartesian,
      ConvertAdjust.convert_to_cartesian.
    cbv zeta. rewrite radians_0, sin_0, cos_0.
    split; (f_equal; [f_equal|]); ring.
Qed.

Lemma transform_clockwise_formula_witness :
  0 <= 1000
  /\ ConvertAdjustEtTuLidar.convert_to_cartesian 0 1000 0 true = (0, 0, 1000)
  /\ ConvertAdjust.convert_to_cartesian 0 1000 0 = (0, 0, 1000).
Proof.
  split; [lra|].
  apply (proj2 transform_clockwise_formula 1000). lra.
Defined.

(** C7. The conversion of [convertAdjust.py] is the conversion of
    [convertAdjust_et_tu_lidar.py] at [clockwise=True], component for
    component. *)
Theorem convert_to_cartesian_variants_agree angle distance rotation :
  ConvertAdjust.convert_to_cartesian angle distance rotation
  = ConvertAdjustEtTuLidar.convert_to_cartesian angle distance rotation true.
Proof. reflexivity. Qed.

End CoordinateTransform.

(** ** ColorMapper *)

Section ColorMapper.
Local Open Scope R_scope.

Lemma distance_to_color_unfold d lo hi :
  hi - lo <> 0 ->
  Reconstruction.distance_to_color d lo hi
  = let n := py_max 0 (py_min 1 ((d - lo) / (hi - lo))) in
    Ret (int (255 * n), int (255 * (1 - Rabs (n - 0.5) * 2)),
         int (255 * (1 - n))).
Proof.
  intros Hne. unfold Reconstruction.distance_to_color.
  rewrite (truediv_nonzero _ _ Hne). reflexivity.
Qed.

(** C3. On a degenerate range [min_distance = max_distance] the code does
    divide by zero: [distance_to_color d m m] raises [ZeroDivisionError] for
    every [d] and [m], in both source files; no colour is returned. *)
Theorem distance_to_color_degenerate_raises d m :
  ConvertAdjust.distance_to_color d m m = Raise ZeroDivisionError
  /\ ConvertAdjustEtTuLidar.distance_to_color d m m = Raise ZeroDivisionError.
Proof.
  unfold ConvertAdjust.distance_to_color,
    ConvertAdjustEtTuLidar.distance_to_color,
    Reconstruction.distance_to_color.
  rewrite truediv_zero by ring. split; reflexivity.
Qed.




End ColorMapper.

(** ** PointCloudBuilder: the row loop *)

Section LoaderFacts.
Local Open Scope R_scope.
Import Reconstruction LogSpec.

Variable float_of_string : string -> option R.
Variable convert : R -> R -> R -> point.

Abbreviation row_body := (row_body float_of_string convert).
Abbreviation read_rows := (read_rows float_of_string convert).
Abbreviation load := (Reconstruction.load_csv_data float_of_string convert).
Abbreviation malformed := (malformed float_of_string).
Abbreviation sample_of := (sample_of float_of_string).
Abbreviation samples_of := (samples_of float_of_string).
Abbreviation convert_sample := (convert_sample convert).
Abbreviation well_shaped := (well_shaped float_of_string).

(** What the [try] body does with a row, by the three kinds of row. *)
Lemma row_body_classify (row : csv_row) :
  match sample_of row with
  | Some s =>
      row_body row = Ret (convert_sample s, distance_of s)
      /\ malformed row = false /\ (4 <= length row)%nat
  | None =>
      if malformed row
      then row_body row = Raise (ValueError "could not convert string to float")
      else row_body row = Raise IndexError /\ (length row < 4)%nat
  end.
Proof.
  unfold LogSpec.sample_of, LogSpec.malformed, LogSpec.field_fails,
    Reconstruction.row_body, Reconstruction.float, getitem.
  destruct row as [|f0 [|f1 [|f2 [|f3 rest]]]]; cbn.
  - split; [reflexivity|lia].
  - split; [reflexivity|lia].
  - destruct (float_of_string f1); cbn; [split; [reflexivity|lia]|reflexivity].
  - destruct (float_of_string f1); cbn; [|reflexivity].
    destruct (float_of_string f2); cbn; [split; [reflexivity|lia]|reflexivity].
  - destruct (float_of_string f1); cbn; [|reflexivity].
    destruct (float_of_string f2); cbn; [|reflexivity].
    destruct (float_of_string f3); cbn; [|reflexivity].
    repeat split; lia.
Qed.

Lemma row_body_sample row s :
  sample_of row = Some s ->
  row_body row = Ret (convert_sample s, distance_of s).
Proof.
  intros H. pose proof (row_body_classify row) as C. rewrite H in C. apply C.
Qed.

Lemma row_body_malformed row :
  malformed row = true ->
  row_body row = Raise (ValueError "could not convert string to float").
Proof.
  intros H. pose proof (row_body_classify row) as C.
  destruct (sample_of row) as [s|].
  - destruct C as (_ & C & _). congruence.
  - rewrite H in C. exact C.
Qed.

Lemma row_body_short row :
  malformed row = false -> (length row < 4)%nat ->
  row_body row = Raise IndexError.
Proof.
  intros H Hlen. pose proof (row_body_classify row) as C.
  destruct (sample_of row) as [s|].
  - destruct C as (_ & _ & C). lia.
  - rewrite H in C. apply C.
Qed.

Lemma sample_of_malformed row : malformed row = true -> sample_of row = None.
Proof.
  intros H. pose proof (row_body_classify row) as C.
  destruct (sample_of row) as [s|]; [|reflexivity].
  destruct C as (_ & C & _). congruence.
Qed.

(** The loop, unfolded by the kind of its first row. *)
Lemma read_rows_sample row rows ps ds s :
  sample_of row = Some s ->
  read_rows (row :: rows) ps ds
  = read_rows rows (ps ++ [convert_sample s]) (ds ++ [distance_of s]).
Proof. intros H. cbn. rewrite (row_body_sample _ _ H). reflexivity. Qed.

Lemma read_rows_malformed row rows ps ds :
  malformed row = true ->
  read_rows (row :: rows) ps ds = read_rows rows ps ds.
Proof. intros H. cbn. rewrite (row_body_malformed _ H). reflexivity. Qed.

Lemma read_rows_short row rows ps ds :
  malformed row = false -> (length row < 4)%nat ->
  read_rows (row :: rows) ps ds = Raise IndexError.
Proof. intros H Hl. cbn. rewrite (row_body_short _ H Hl). reflexivity. Qed.

(** The three kinds are exhaustive. *)
Lemma row_kinds row :
  (exists s, sample_of row = Some s)
  \/ malformed row = true
  \/ (malformed row = false /\ (length row < 4)%nat).
Proof.
  pose proof (row_body_classify row) as C.
  destruct (sample_of row) as [s|]; [left; eauto|].
  destruct (malformed row); [right; left; reflexivity|].
  right; right. split; [reflexivity|apply C].
Qed.

Lemma samples_of_cons row rows :
  samples_of (row :: rows)
  = match sample_of row with
    | Some s => s :: samples_of rows
    | None => samples_of rows
    end.
Proof. reflexivity. Qed.

(** Rows that fail numeric parsing leave no trace in the loop. *)
Lemma read_rows_filter rows ps ds :
  read_rows rows ps ds
  = read_rows (filter (fun row => malformed row = false) rows) ps ds.
Proof.
  revert ps ds. induction rows as [|row rows IH]; intros ps ds; [reflexivity|].
  rewrite filter_cons. destruct (decide (malformed row = false)) as [Hm|Hm].
  - cbn. destruct (Reconstruction.row_body _ _ row) as [[p d]|e]; [apply IH|].
    destruct (is_ValueError e); [apply IH|reflexivity].
  - apply not_false_is_true in Hm. rewrite (read_rows_malformed _ _ _ _ Hm).
    apply IH.
Qed.

(** When the loop returns, its lists are the conversions and the distances
    of the rows whose three fields parse, in the order of the log. *)
Lemma read_rows_ret rows ps ds ps' ds' :
  read_rows rows ps ds = Ret (ps', ds') ->
  ps' = ps ++ map convert_sample (samples_of rows)
  /\ ds' = ds ++ map distance_of (samples_of rows).
Proof.
  revert ps ds. induction rows as [|row rows IH]; intros ps ds.
  - cbn. intros [= <- <-]. rewrite !app_nil_r. auto.
  - rewrite samples_of_cons.
    destruct (row_kinds row) as [[s Hs]|[Hm|[Hm Hl]]].
    + rewrite (read_rows_sample _ _ _ _ _ Hs), Hs. intros H.
      apply IH in H as [-> ->]. cbn. rewrite <- !app_assoc. auto.
    + rewrite (read_rows_malformed _ _ _ _ Hm), (sample_of_malformed _ Hm).
      apply IH.
    + rewrite (read_rows_short _ _ _ _ Hm Hl). discriminate.
Qed.

(** A short row whose present fields parse aborts the loop, wherever it
    stands in the log. *)
Lemma read_rows_index_error rows row ps ds :
  row ∈ rows -> malformed row = false -> (length row < 4)%nat ->
  read_rows rows ps ds = Raise IndexError.
Proof.
  intros Hin Hm Hl. revert ps ds.
  induction rows as [|row' rows IH]; intros ps ds; [by apply elem_of_nil in Hin|].
  destruct (row_kinds row') as [[s Hs]|[Hm'|[Hm' Hl']]].
  - rewrite (read_rows_sample _ _ _ _ _ Hs).
    apply elem_of_cons in Hin as [->|Hin]; [|by apply IH].
    pose proof (row_body_classify row') as C. rewrite Hs in C.
    destruct C as (_ & _ & C). lia.
  - rewrite (read_rows_malformed _ _ _ _ Hm').
    apply elem_of_cons in Hin as [->|Hin]; [congruence|by apply IH].
  - apply read_rows_short; assumption.
Qed.

(** Without such a row the loop returns. *)
Lemma read_rows_total rows ps ds :
  (forall row, row ∈ rows -> malformed row = false -> (4 <= length row)%nat) ->
  read_rows rows ps ds
  = Ret (ps ++ map convert_sample (samples_of rows),
         ds ++ map distance_of (samples_of rows)).
Proof.
  revert ps ds. induction rows as [|row rows IH]; intros ps ds Hall.
  - cbn. rewrite !app_nil_r. reflexivity.
  - assert (Hall' : forall r, r ∈ rows -> malformed r = false ->
                              (4 <= length r)%nat).
    { intros r Hr. apply Hall. by apply elem_of_cons; right. }
    rewrite samples_of_cons.
    destruct (row_kinds row) as [[s Hs]|[Hm|[Hm Hl]]].
    + rewrite (read_rows_sample _ _ _ _ _ Hs), Hs, (IH _ _ Hall').
      cbn. rewrite <- !app_assoc. reflexivity.
    + rewrite (read_rows_malformed _ _ _ _ Hm), (sample_of_malformed _ Hm).
      apply IH, Hall'.
    + specialize (Hall row (list_elem_of_here _ _) Hm). lia.
Qed.

(** *** Minimum and maximum of the distances *)

Lemma fold_py_min_spec ds d0 :
  let m := fold_left py_min ds d0 in
  m ∈ d0 :: ds /\ forall x, x ∈ d0 :: ds -> m <= x.
Proof.
  revert d0. induction ds as [|d ds IH]; intros d0; cbn.
  - split; [apply list_elem_of_here|].
    intros x Hx. apply list_elem_of_singleton in Hx. subst. lra.
  - destruct (IH (py_min d0 d)) as [Hin Hle]. split.
    + apply elem_of_cons in Hin as [Hm|Hin].
      * rewrite Hm. destruct (py_min_bounds d0 d) as (_ & _ & [->| ->]).
        -- apply list_elem_of_here.
        -- apply list_elem_of_further, list_elem_of_here.
      * by do 2 apply list_elem_of_further.
    + intros x Hx.
      assert (Hm : fold_left py_min ds (py_min d0 d) <= py_min d0 d)
        by apply Hle, list_elem_of_here.
      destruct (py_min_bounds d0 d) as (? & ? & _).
      apply elem_of_cons in Hx as [->|Hx]; [lra|].
      apply elem_of_cons in Hx as [->|Hx]; [lra|].
      by apply Hle, list_elem_of_further.
Qed.

Lemma fold_py_max_spec ds d0 :
  let m := fold_left py_max ds d0 in
  m ∈ d0 :: ds /\ forall x, x ∈ d0 :: ds -> x <= m.
Proof.
  revert d0. induction ds as [|d ds IH]; intros d0; cbn.
  - split; [apply list_elem_of_here|].
    intros x Hx. apply list_elem_of_singleton in Hx. subst. lra.
  - destruct (IH (py_max d0 d)) as [Hin Hle]. split.
    + apply elem_of_cons in Hin as [Hm|Hin].
      * rewrite Hm. destruct (py_max_bounds d0 d) as (_ & _ & [->| ->]).
        -- apply list_elem_of_here.
        -- apply list_elem_of_further, list_elem_of_here.
      * by do 2 apply list_elem_of_further.
    + intros x Hx.
      assert (Hm : py_max d0 d <= fold_left py_max ds (py_max d0 d))
        by apply Hle, list_elem_of_here.
      destruct (py_max_bounds d0 d) as (? & ? & _).
      apply elem_of_cons in Hx as [->|Hx]; [lra|].
      apply elem_of_cons in Hx as [->|Hx]; [lra|].
      by apply Hle, list_elem_of_further.
Qed.

(** Two different distances in the list separate its minimum from its
    maximum; a constant list makes them equal. *)
Lemma min_max_distinct d0 ds a b :
  a ∈ d0 :: ds -> b ∈ d0 :: ds -> a <> b ->
  fold_left py_max ds d0 - fold_left py_min ds d0 <> 0.
Proof.
  intros Ha Hb Hab.
  destruct (fold_py_min_spec ds d0) as [_ Hmin].
  destruct (fold_py_max_spec ds d0) as [_ Hmax].
  pose proof (Hmin a Ha). pose proof (Hmin b Hb).
  pose proof (Hmax a Ha). pose proof (Hmax b Hb).
  destruct (Rtotal_order a b) as [?|[?|?]]; lra.
Qed.

Lemma min_max_constant d0 ds :
  (forall x, x ∈ ds -> x = d0) ->
  fold_left py_min ds d0 = d0 /\ fold_left py_max ds d0 = d0.
Proof.
  intros Hall.
  assert (Hall' : forall x, x ∈ d0 :: ds -> x = d0).
  { intros x Hx. apply elem_of_cons in Hx as [->|Hx]; auto. }
  split.
  - apply Hall', fold_py_min_spec.
  - apply Hall', fold_py_max_spec.
Qed.

(** *** The colouring comprehension *)

Lemma mapM_color_returns lo hi (pds : list (point * R)) :
  hi - lo <> 0 ->
  exists cps, mapM (color_point lo hi) pds = Ret cps
              /\ map position cps = map fst pds.
Proof.
  intros Hne. induction pds as [|[[[x y] z] d] pds (cps & IH & Hpos)].
  - exists []. split; reflexivity.
  - cbn. rewrite (distance_to_color_unfold _ _ _ Hne). cbn.
    change (mbind ?f ?m) with (Py.bind m f). cbn.
    fold (mapM (color_point lo hi) pds). rewrite IH. cbn.
    eexists. split; [reflexivity|]. cbn. by rewrite Hpos.
Qed.

Lemma mapM_color_degenerate lo (pd : point * R) pds :
  mapM (color_point lo lo) (pd :: pds) = Raise ZeroDivisionError.
Proof.
  destruct pd as [[[x y] z] d]. cbn.
  unfold Reconstruction.distance_to_color.
  rewrite truediv_zero by ring. reflexivity.
Qed.

Lemma mapM_color_raise lo hi (pds : list (point * R)) e :
  mapM (color_point lo hi) pds = Raise e -> e = ZeroDivisionError.
Proof.
  destruct (Req_dec_T (hi - lo) 0) as [Hz|Hne].
  - destruct pds as [|pd pds]; [discriminate|].
    assert (hi = lo) as -> by lra.
    rewrite mapM_color_degenerate. congruence.
  - destruct (mapM_color_returns lo hi pds Hne) as (cps & -> & _).
    discriminate.
Qed.

(** *** [load_csv_data] as a whole *)

Lemma load_of_read_rows h rows ps ds :
  read_rows rows [] [] = Ret (ps, ds) ->
  load (h :: rows)
  = match ps with
    | [] => Raise no_valid_points
    | _ :: _ =>
        lo ← min_list ds; hi ← max_list ds;
        cps ← mapM (color_point lo hi) (zip ps ds);
        mret (cps, ps)
    end.
Proof. intros H. unfold Reconstruction.load_csv_data. rewrite H. reflexivity. Qed.

Lemma samples_of_all_malformed rows :
  (forall row, row ∈ rows -> malformed row = true) -> samples_of rows = [].
Proof.
  induction rows as [|row rows IH]; intros Hall; [reflexivity|].
  rewrite samples_of_cons, sample_of_malformed.
  - apply IH. intros r Hr. apply Hall. by apply list_elem_of_further.
  - apply Hall, list_elem_of_here.
Qed.

Lemma sample_in_samples_of row rows s :
  row ∈ rows -> sample_of row = Some s -> s ∈ samples_of rows.
Proof.
  intros Hin Hs. unfold LogSpec.samples_of.
  apply list_elem_of_omap. eauto.
Qed.

Lemma load_no_samples h rows :
  (forall row, row ∈ rows -> malformed row = true) ->
  load (h :: rows) = Raise no_valid_points.
Proof.
  intros Hall.
  rewrite (load_of_read_rows h rows [] []); [reflexivity|].
  rewrite read_rows_total.
  - by rewrite (samples_of_all_malformed _ Hall).
  - intros row Hin Hm. rewrite (Hall row Hin) in Hm. discriminate.
Qed.

Lemma load_index_error h rows row :
  row ∈ rows -> malformed row = false -> (length row < 4)%nat ->
  load (h :: rows) = Raise IndexError.
Proof.
  intros Hin Hm Hl. unfold Reconstruction.load_csv_data.
  by rewrite (read_rows_index_error rows row [] [] Hin Hm Hl).
Qed.

Lemma load_filter h rows :
  load (h :: rows) = load (h :: filter (fun row => malformed row = false) rows).
Proof.
  unfold Reconstruction.load_csv_data. by rewrite read_rows_filter.
Qed.

(** The colouring of a non-empty batch, by whether its distances differ. *)
Lemma load_well_shaped h rows s ss :
  well_shaped rows -> samples_of rows = s :: ss ->
  let ps := map convert_sample (s :: ss) in
  let ds := map distance_of (s :: ss) in
  load (h :: rows)
  = (cps ← mapM (color_point (fold_left py_min (tail ds) (distance_of s))
                             (fold_left py_max (tail ds) (distance_of s)))
                (zip ps ds);
     mret (cps, ps)).
Proof.
  intros Hw Hs ps ds.
  rewrite (load_of_read_rows h rows ps ds).
  - reflexivity.
  - rewrite (read_rows_total _ _ _ Hw), Hs. reflexivity.
Qed.

Lemma zip_positions (ss : list (R * R * R)) :
  map fst (zip (map convert_sample ss) (map distance_of ss))
  = map convert_sample ss.
Proof. apply fst_zip. by rewrite !length_map. Qed.

Lemma load_returns h rows a b :
  well_shaped rows ->
  a ∈ samples_of rows -> b ∈ samples_of rows ->
  distance_of a <> distance_of b ->
  exists cps,
    load (h :: rows) = Ret (cps, map convert_sample (samples_of rows))
    /\ map position cps = map convert_sample (samples_of rows).
Proof.
  intros Hw Ha Hb Hab.
  destruct (samples_of rows) as [|s ss] eqn:Hs; [by apply elem_of_nil in Ha|].
  rewrite (load_well_shaped h rows s ss Hw Hs). cbv zeta.
  set (ds := map distance_of (s :: ss)).
  assert (Hne : fold_left py_max (tail ds) (distance_of s)
                - fold_left py_min (tail ds) (distance_of s) <> 0).
  { apply (min_max_distinct _ _ (distance_of a) (distance_of b)); [| |done].
    - change (distance_of a ∈ map distance_of (s :: ss)).
      by apply list_elem_of_fmap_2.
    - change (distance_of b ∈ map distance_of (s :: ss)).
      by apply list_elem_of_fmap_2. }
  destruct (mapM_color_returns _ _
              (zip (map convert_sample (s :: ss)) ds) Hne) as (cps & -> & Hp).
  exists cps. split; [reflexivity|]. rewrite Hp. apply zip_positions.
Qed.

Lemma load_constant_distance h rows s ss :
  well_shaped rows -> samples_of rows = s :: ss ->
  (forall s', s' ∈ ss -> distance_of s' = distance_of s) ->
  load (h :: rows) = Raise ZeroDivisionError.
Proof.
  intros Hw Hs Hall.
  rewrite (load_well_shaped h rows s ss Hw Hs). cbv zeta. cbn [map tail].
  destruct (min_max_constant (distance_of s) (map distance_of ss)) as [-> ->].
  { intros x Hx. apply list_elem_of_fmap in Hx as (s' & -> & Hs'). auto. }
  cbn [zip_with]. by rewrite mapM_color_degenerate.
Qed.

Lemma read_rows_raise rows ps ds e :
  read_rows rows ps ds = Raise e -> e = IndexError.
Proof.
  revert ps ds. induction rows as [|row rows IH]; intros ps ds; [discriminate|].
  destruct (row_kinds row) as [[s Hs]|[Hm|[Hm Hl]]].
  - rewrite (read_rows_sample _ _ _ _ _ Hs). apply IH.
  - rewrite (read_rows_malformed _ _ _ _ Hm). apply IH.
  - rewrite (read_rows_short _ _ _ _ Hm Hl). congruence.
Qed.

(** Every outcome of [load_csv_data] on a log with a header line. *)
Lemma load_cases h rows :
  load (h :: rows) = Raise IndexError
  \/ (samples_of rows = [] /\ load (h :: rows) = Raise no_valid_points)
  \/ (samples_of rows <> []
      /\ (load (h :: rows) = Raise ZeroDivisionError
          \/ exists cps,
               load (h :: rows) = Ret (cps, map convert_sample (samples_of rows))
               /\ map position cps = map convert_sample (samples_of rows))).
Proof.
  destruct (Reconstruction.read_rows float_of_string convert rows [] [])
    as [[ps ds]|e] eqn:Hr.
  - rewrite (load_of_read_rows _ _ _ _ Hr).
    apply read_rows_ret in Hr as [-> ->]. cbn [app].
    destruct (samples_of rows) as [|s ss]; [right; left; split; reflexivity|].
    right; right. split; [discriminate|].
    cbn [map min_list max_list]. rewrite !bind_Ret.
    set (lo := fold_left py_min _ _). set (hi := fold_left py_max _ _).
    destruct (Req_dec_T (hi - lo) 0) as [Hz|Hne].
    + left. assert (hi = lo) as -> by lra.
      cbn [zip_with]. by rewrite mapM_color_degenerate.
    + right.
      destruct (mapM_color_returns lo hi
                  (zip (convert_sample s :: map convert_sample ss)
                       (distance_of s :: map distance_of ss))
                  Hne) as (cps & Hm & Hp).
      exists cps. rewrite Hm, bind_Ret. split; [reflexivity|].
      rewrite Hp. apply (zip_positions (s :: ss)).
  - left. apply read_rows_raise in Hr as Hr'. subst e.
    unfold Reconstruction.load_csv_data. by rewrite Hr.
Qed.

Lemma load_ret_points h rows cps ps :
  load (h :: rows) = Ret (cps, ps) ->
  ps = map convert_sample (samples_of rows) /\ map position cps = ps.
Proof.
  intros Hload.
  destruct (load_cases h rows)
    as [He|[[_ He]|[_ [He|(cps' & He & Hp)]]]]; rewrite He in Hload;
    try discriminate.
  injection Hload as <- <-. auto.
Qed.

(** The empty-input error is raised only when every row fails parsing. *)
Lemma load_no_valid_points_inv h rows :
  load (h :: rows) = Raise no_valid_points ->
  forall row, row ∈ rows -> malformed row = true.
Proof.
  intros Hload row Hin.
  destruct (malformed row) eqn:Hm; [reflexivity|exfalso].
  destruct (row_kinds row) as [[s Hs]|[Hm'|[_ Hl]]]; [| congruence |].
  - pose proof (sample_in_samples_of _ _ _ Hin Hs) as Hs'.
    destruct (load_cases h rows)
      as [He|[[Hn _]|[_ [He|(cps' & He & _)]]]];
      try (rewrite He in Hload; discriminate).
    rewrite Hn in Hs'. by apply elem_of_nil in Hs'.
  - rewrite (load_index_error h rows row Hin Hm Hl) in Hload. discriminate.
Qed.

End LoaderFacts.

(** ** ScanController *)

Section ScanFacts.
Import Scan.

Variable E : env.

Lemma bind_inv {A B} (m : M A) (k : A -> M B) w r w' :
  (m ≫= k) w = Some (r, w') ->
  (exists a w1, m w = Some (Ret a, w1) /\ k a w1 = Some (r, w'))
  \/ (exists e, m w = Some (Raise e, w') /\ r = Raise e).
Proof.
  unfold mbind, M_bind. destruct (m w) as [[[a|e] w1]|]; [| |discriminate].
  - intros H. left. eauto.
  - intros [= <- <-]. right. eauto.
Qed.

Lemma act_inv a w r w' :
  act E a w = Some (r, w') ->
  (r = Ret tt /\ events w' = a :: events w /\ pending w' = pending w)
  \/ (r = Raise KeyboardInterrupt /\ events w' = events w
      /\ pending w' = false /\ pending w = true
      /\ interrupt E (events w) = true).
Proof.
  unfold act. destruct (pending w) eqn:Hp; cbn.
  - destruct (interrupt E (events w)) eqn:Hi; intros [= <- <-]; cbn; auto 10.
  - intros [= <- <-]; cbn; auto.
Qed.

(** Without an interrupt to come, a call is simply made. *)
Lemma act_quiet a w :
  pending w = false \/ interrupt E (events w) = false ->
  act E a w = Some (Ret tt, {| events := a :: events w; pending := pending w |}).
Proof.
  unfold act. intros [-> | ->]; [reflexivity|].
  by rewrite andb_false_r.
Qed.

Lemma sound_ret {A} P (a : A) : sound P (mret a).
Proof.
  intros w r w' [= <- <-]. split; [exists []; auto|]. split; [discriminate|auto].
Qed.

Lemma sound_lift {A} P (x : result A) :
  x <> Raise KeyboardInterrupt -> sound P (lift x).
Proof.
  intros Hx w r w' [= <- <-]. split; [exists []; auto|]. split; [done|auto].
Qed.

Lemma sound_ask {A} P (f : list action -> A) : sound P (ask f).
Proof.
  intros w r w' [= <- <-]. split; [exists []; auto|]. split; [discriminate|auto].
Qed.

Lemma sound_act P a : P a -> sound P (act E a).
Proof.
  intros Ha w r w' H.
  apply act_inv in H as [(-> & He & Hp)|(-> & He & Hp & _)].
  - split; [exists [a]; split; [done|by constructor]|].
    split; [discriminate|congruence].
  - split; [exists []; auto|]. auto.
Qed.

Lemma sound_bind {A B} P (m : M A) (k : A -> M B) :
  sound P m -> (forall a, sound P (k a)) -> sound P (m ≫= k).
Proof.
  intros Hm Hk w r w' H.
  apply bind_inv in H as [(a & w1 & H1 & H2)|(e & H1 & ->)].
  - destruct (Hm _ _ _ H1) as ((n1 & E1 & F1) & _ & P1).
    destruct (Hk a _ _ _ H2) as ((n2 & E2 & F2) & K2 & P2).
    split; [|split; auto].
    exists (n2 ++ n1). rewrite E2, E1, app_assoc. split; [done|].
    by apply Forall_app.
  - destruct (Hm _ _ _ H1) as (Hn & K1 & P1).
    split; [exact Hn|]. split; [|exact P1].
    intros [= ->]. by apply K1.
Qed.

Lemma sound_try_finally {A} P (body : M A) (fin : M unit) :
  sound P body -> sound P fin -> sound P (try_finally body fin).
Proof.
  intros Hb Hf w r w'. unfold try_finally.
  destruct (body w) as [[rb w1]|] eqn:H1; [|discriminate].
  destruct (fin w1) as [[rf w2]|] eqn:H2; [|discriminate].
  destruct (Hb _ _ _ H1) as ((n1 & E1 & F1) & K1 & P1).
  destruct (Hf _ _ _ H2) as ((n2 & E2 & F2) & K2 & P2).
  assert (Hnew : exists new, events w2 = new ++ events w /\ Forall P new).
  { exists (n2 ++ n1). rewrite E2, E1, app_assoc. split; [done|].
    by apply Forall_app. }
  destruct rf as [[]|e]; intros [= <- <-]; (split; [exact Hnew|]); split.
  - intros Hk. apply P2, K1, Hk.
  - intros Hp. apply P2, P1, Hp.
  - intros [= ->]. by apply K2.
  - intros Hp. apply P2, P1, Hp.
Qed.

Lemma getitem_not_interrupt {A} (l : list A) i :
  getitem l i <> Raise KeyboardInterrupt.
Proof. unfold getitem. destruct (l !! i); discriminate. Qed.

Abbreviation safe := (sound (not_sentinel_row E)).



Abbreviation in_loop := (sound (loop_event E)).

Lemma sound_sweep rot data angles seen : in_loop (sweep E rot data angles seen).
Proof.
  revert seen. induction angles as [|angle angles IH]; intros seen; cbn.
  - apply sound_ret.
  - apply sound_bind; [apply sound_lift, getitem_not_interrupt|].
    intros distance. destruct (decide (distance = out_of_range E)); [apply IH|].
    destruct (decide ((angle, distance) ∈ seen)); [apply IH|].
    apply sound_bind; [by apply sound_act|]. intros _. apply IH.
Qed.

(** The [while] loop, one iteration unfolded. *)
Lemma sample_O rot seen k :
  sample E 0 rot seen k
  = if (k <? scans_per_step)%nat then still_polling else mret tt.
Proof. reflexivity. Qed.

Lemma sample_S fuel rot seen k :
  sample E (S fuel) rot seen k
  = if (k <? scans_per_step)%nat then
      act E LidarAvailable;;
      is_available ← ask (available E);
      if negb is_available then
        act E (Sleep 10);; sample E fuel rot seen k
      else
        act E LidarGetData;;
        data ← ask (get_data E);
        seen' ← sweep E rot data (seq 0 180) seen;
        sample E fuel rot seen' (S k)
    else mret tt.
Proof. reflexivity. Qed.

Lemma sound_sample fuel rot seen k : in_loop (sample E fuel rot seen k).
Proof.
  revert seen k. induction fuel as [|fuel IH]; intros seen k.
  - rewrite sample_O. destruct (k <? scans_per_step)%nat; [|apply sound_ret].
    intros w r w'. discriminate.
  - rewrite sample_S. destruct (k <? scans_per_step)%nat; [|apply sound_ret].
    apply sound_bind; [by apply sound_act|]. intros _.
    apply sound_bind; [apply sound_ask|]. intros [|]; cbn [negb].
    + apply sound_bind; [by apply sound_act|]. intros _.
      apply sound_bind; [apply sound_ask|]. intros data.
      apply sound_bind; [apply sound_sweep|]. intros seen'. apply IH.
    + apply sound_bind; [by apply sound_act|]. intros _. apply IH.
Qed.

Lemma sound_scan_step fuel step : in_loop (scan_step E fuel step).
Proof.
  unfold scan_step, send_motor_cmd.
  apply sound_bind; [apply sound_sample|]. intros _.
  repeat (apply sound_bind; [|intros _]); by apply sound_act.
Qed.

Lemma sound_scan_steps fuel range : in_loop (scan_steps E fuel range).
Proof.
  induction range as [|step range IH]; cbn; [apply sound_ret|].
  apply sound_bind; [apply sound_scan_step|]. intros _. apply IH.
Qed.




(** *** The [finally] suite *)




(** *** Progress: an undisturbed loop completes *)

Lemma bind_ret_eq {A B} (m : M A) (k : A -> M B) w a w1 :
  m w = Some (Ret a, w1) -> (m ≫= k) w = k a w1.
Proof. intros H. unfold mbind, M_bind. by rewrite H. Qed.

Lemma act_loop a w :
  loop_quiet E -> loop_call a = true -> calm E w ->
  exists w1,
    act E a w = Some (Ret tt, w1) /\ calm E w1 /\ pending w1 = pending w.
Proof.
  intros Hq Ha Hc. eexists. split; [by apply act_quiet|].
  split; [|reflexivity]. right. cbn. by apply Hq.
Qed.

Lemma sweep_completes rot data angles seen w :
  loop_quiet E ->
  (forall a, a ∈ angles -> (a < length data)%nat) ->
  calm E w ->
  exists seen' w',
    sweep E rot data angles seen w = Some (Ret seen', w')
    /\ calm E w' /\ pending w' = pending w.
Proof.
  intros Hq. revert seen w.
  induction angles as [|angle angles IH]; intros seen w Hlen Hc.
  - exists seen, w. done.
  - cbn [sweep].
    destruct (lookup_lt_is_Some_2 data angle) as [d Hd].
    { apply Hlen, list_elem_of_here. }
    assert (Hlen' : forall a, a ∈ angles -> (a < length data)%nat).
    { intros a Ha. apply Hlen. by apply list_elem_of_further. }
    rewrite (bind_ret_eq _ _ w d w); [|unfold lift, getitem; by rewrite Hd].
    destruct (decide (d = out_of_range E)); [by apply IH|].
    destruct (decide ((angle, d) ∈ seen)); [by apply IH|].
    destruct (act_loop (CsvWriteRow 1 angle d rot) w Hq eq_refl Hc)
      as (w1 & H1 & Hc1 & Hp1).
    rewrite (bind_ret_eq _ _ _ _ _ H1).
    destruct (IH ({[(angle, d)]} ∪ seen) w1 Hlen' Hc1) as (s' & w' & H & Hc' & Hp').
    exists s', w'. split; [exact H|]. split; [exact Hc'|congruence].
Qed.

Lemma sample_completes data fuel rot seen k w :
  loop_quiet E ->
  (forall history, available E history = true) ->
  (forall history, get_data E history = data) ->
  (180 <= length data)%nat ->
  calm E w ->
  (scans_per_step <= k + fuel)%nat ->
  exists w',
    sample E fuel rot seen k w = Some (Ret tt, w')
    /\ calm E w' /\ pending w' = pending w.
Proof.
  intros Hq Hav Hdata Hlen. revert seen k w.
  induction fuel as [|fuel IH]; intros seen k w Hc Hk.
  - rewrite sample_O.
    destruct (Nat.ltb_spec k scans_per_step) as [Hlt|_]; [lia|].
    exists w. done.
  - rewrite sample_S.
    destruct (Nat.ltb_spec k scans_per_step) as [Hlt|_]; [|by exists w].
    destruct (act_loop LidarAvailable w Hq eq_refl Hc) as (w1 & H1 & Hc1 & Hp1).
    rewrite (bind_ret_eq _ _ _ _ _ H1).
    rewrite (bind_ret_eq _ _ w1 true w1); [|unfold ask; by rewrite Hav].
    cbn [negb].
    destruct (act_loop LidarGetData w1 Hq eq_refl Hc1) as (w2 & H2 & Hc2 & Hp2).
    rewrite (bind_ret_eq _ _ _ _ _ H2).
    rewrite (bind_ret_eq _ _ w2 data w2); [|unfold ask; by rewrite Hdata].
    destruct (sweep_completes rot data (seq 0 180) seen w2 Hq)
      as (seen' & w3 & H3 & Hc3 & Hp3); [|done|].
    { intros a Ha. apply elem_of_seq in Ha. lia. }
    rewrite (bind_ret_eq _ _ _ _ _ H3).
    destruct (IH seen' (S k) w3 Hc3) as (w' & H & Hc' & Hp'); [lia|].
    exists w'. split; [exact H|]. split; [exact Hc'|congruence].
Qed.

Lemma scan_steps_completes data fuel range w :
  loop_quiet E ->
  (forall history, available E history = true) ->
  (forall history, get_data E history = data) ->
  (180 <= length data)%nat ->
  (scans_per_step <= fuel)%nat ->
  calm E w ->
  exists w',
    scan_steps E fuel range w = Some (Ret tt, w')
    /\ calm E w' /\ pending w' = pending w.
Proof.
  intros Hq Hav Hdata Hlen Hfuel. revert w.
  induction range as [|step range IH]; intros w Hc; [by exists w|].
  cbn [scan_steps]. unfold scan_step, send_motor_cmd.
  destruct (sample_completes data fuel (INR step * step_angle) ∅ 0 w)
    as (w1 & H1 & Hc1 & Hp1); try done.
  destruct (act_loop (MotorWrite "C") w1 Hq eq_refl Hc1) as (w2 & H2 & Hc2 & Hp2).
  destruct (act_loop (Sleep 50) w2 Hq eq_refl Hc2) as (w3 & H3 & Hc3 & Hp3).
  destruct (act_loop MotorReadline w3 Hq eq_refl Hc3) as (w4 & H4 & Hc4 & Hp4).
  destruct (act_loop (Sleep 50) w4 Hq eq_refl Hc4) as (w5 & H5 & Hc5 & Hp5).
  destruct (IH w5 Hc5) as (w' & H & Hc' & Hp').
  exists w'. split; [|split; [exact Hc'|congruence]].
  rewrite (bind_ret_eq _ _ w tt w5); [exact H|].
  rewrite (bind_ret_eq _ _ _ _ _ H1).
  rewrite (bind_ret_eq _ _ w1 tt w4); [exact H5|].
  rewrite (bind_ret_eq _ _ _ _ _ H2).
  rewrite (bind_ret_eq _ _ _ _ _ H3). exact H4.
Qed.

(** *** Deduplication within a step *)

Lemma pairs_of_app l1 l2 : pairs_of (l1 ++ l2) = pairs_of l1 ++ pairs_of l2.
Proof. apply omap_app. Qed.

Lemma act_no_pair a w r w' :
  pair_of a = None -> act E a w = Some (r, w') ->
  exists new, events w' = new ++ events w /\ pairs_of new = [].
Proof.
  intros Ha H. apply act_inv in H as [(_ & He & _)|(_ & He & _)].
  - exists [a]. split; [done|]. unfold pairs_of. cbn. by rewrite Ha.
  - exists []. done.
Qed.

Lemma send_motor_cmd_no_pair cmd w r w' :
  send_motor_cmd E cmd w = Some (r, w') ->
  exists new, events w' = new ++ events w /\ pairs_of new = [].
Proof.
  unfold send_motor_cmd. intros H.
  apply bind_inv in H as [([] & w1 & H1 & H)|(e & H1 & _)];
    [|by apply act_no_pair in H1].
  apply act_no_pair in H1 as (n1 & E1 & P1); [|done].
  apply bind_inv in H as [([] & w2 & H2 & H)|(e & H2 & _)].
  - apply act_no_pair in H2 as (n2 & E2 & P2); [|done].
    apply act_no_pair in H as (n3 & E3 & P3); [|done].
    exists (n3 ++ n2 ++ n1).
    rewrite E3, E2, E1, <- !app_assoc, !pairs_of_app, P1, P2, P3. done.
  - apply act_no_pair in H2 as (n2 & E2 & P2); [|done].
    exists (n2 ++ n1). rewrite E2, E1, <- !app_assoc, !pairs_of_app, P1, P2.
    done.
Qed.

(** One sweep writes only pairs that are not in [seen], each once, and adds
    them to [seen]. *)
Lemma sweep_inv rot data angles seen w r w' :
  sweep E rot data angles seen w = Some (r, w') ->
  exists new,
    events w' = new ++ events w
    /\ NoDup (pairs_of new)
    /\ (forall p, p ∈ pairs_of new -> p ∉ seen)
    /\ (forall seen', r = Ret seen' -> seen' = list_to_set (pairs_of new) ∪ seen).
Proof.
  revert seen w. induction angles as [|angle angles IH]; intros seen w; cbn.
  - intros [= <- <-]. exists []. cbn. repeat split.
    + constructor.
    + intros p Hp. by apply elem_of_nil in Hp.
    + intros seen' [= <-]. symmetry. apply (left_id_L ∅ (∪)).
  - intros H.
    apply bind_inv in H as [(distance & w1 & H1 & H)|(e & H1 & ->)].
    2:{ injection H1 as _ <-. exists []. cbn. repeat split.
        - constructor.
        - intros p Hp. by apply elem_of_nil in Hp.
        - discriminate. }
    injection H1 as _ <-.
    destruct (decide (distance = out_of_range E)); [by apply IH|].
    destruct (decide ((angle, distance) ∈ seen)) as [Hin|Hnin]; [by apply IH|].
    apply bind_inv in H as [([] & w1 & H1 & H)|(e & H1 & ->)].
    + apply act_inv in H1 as [(_ & E1 & _)|(? & _)]; [|discriminate].
      apply IH in H as (new & E2 & Hnd & Hfresh & Hseen).
      exists (new ++ [CsvWriteRow 1 angle distance rot]).
      rewrite E2, E1, <- app_assoc, pairs_of_app. cbn.
      split; [done|]. split; [|split].
      * apply NoDup_app. split; [done|]. split; [|apply NoDup_singleton].
        intros p Hp Hp'. apply list_elem_of_singleton in Hp'. subst p.
        apply (Hfresh _ Hp). by apply elem_of_union_l, elem_of_singleton.
      * intros p Hp. apply elem_of_app in Hp as [Hp|Hp].
        -- intros Hin. apply (Hfresh _ Hp). by apply elem_of_union_r.
        -- apply list_elem_of_singleton in Hp. by subst p.
      * intros seen' Hr. rewrite (Hseen _ Hr), list_to_set_app_L.
        by rewrite list_to_set_cons, list_to_set_nil, (right_id_L ∅ (∪)),
             (assoc_L (∪)).
    + apply act_inv in H1 as [(? & _)|(_ & E1 & _)]; [discriminate|].
      exists []. cbn. repeat split.
      * done.
      * constructor.
      * intros p Hp. by apply elem_of_nil in Hp.
      * discriminate.
Qed.

(** The whole [while] loop keeps the pairs it writes distinct. *)
Lemma sample_inv fuel rot seen k w r w' :
  sample E fuel rot seen k w = Some (r, w') ->
  exists new,
    events w' = new ++ events w
    /\ NoDup (pairs_of new)
    /\ (forall p, p ∈ pairs_of new -> p ∉ seen).
Proof.
  revert seen k w. induction fuel as [|fuel IH]; intros seen k w.
  - rewrite sample_O. destruct (k <? scans_per_step)%nat; [discriminate|].
    intros [= <- <-]. exists []. split; [done|]. split; [constructor|].
    intros p Hp. by apply elem_of_nil in Hp.
  - rewrite sample_S. destruct (k <? scans_per_step)%nat.
    2:{ intros [= <- <-]. exists []. split; [done|]. split; [constructor|].
        intros p Hp. by apply elem_of_nil in Hp. }
    intros H.
    apply bind_inv in H as [([] & w1 & H1 & H)|(e & H1 & _)].
    2:{ apply act_no_pair in H1 as (n1 & E1 & P1); [|done].
        exists n1. rewrite P1. split; [done|]. split; [constructor|].
        intros p Hp. by apply elem_of_nil in Hp. }
    apply act_no_pair in H1 as (n1 & E1 & P1); [|done].
    apply bind_inv in H as [(avail & w2 & H2 & H)|(e & H2 & _)];
      [|discriminate].
    injection H2 as <- <-.
    destruct (available E (events w1)); cbn [negb] in H.
    + apply bind_inv in H as [([] & w2 & H2 & H)|(e & H2 & _)].
      2:{ apply act_no_pair in H2 as (n2 & E2 & P2); [|done].
          exists (n2 ++ n1). rewrite E2, E1, app_assoc, pairs_of_app, P1, P2.
          split; [done|]. split; [constructor|].
          intros p Hp. by apply elem_of_nil in Hp. }
      apply act_no_pair in H2 as (n2 & E2 & P2); [|done].
      apply bind_inv in H as [(data & w3 & H3 & H)|(e & H3 & _)];
        [|discriminate].
      injection H3 as <- <-.
      apply bind_inv in H as [(seen' & w3 & H3 & H)|(e & H3 & _)].
      * apply sweep_inv in H3 as (n3 & E3 & Hnd3 & Hf3 & Hs3).
        specialize (Hs3 _ eq_refl). subst seen'.
        apply IH in H as (n4 & E4 & Hnd4 & Hf4).
        exists (n4 ++ n3 ++ n2 ++ n1).
        rewrite E4, E3, E2, E1, <- !app_assoc, !pairs_of_app, P1, P2, !app_nil_r.
        split; [done|]. split.
        -- apply NoDup_app. split; [done|]. split; [|done].
           intros p Hp Hp'. apply (Hf4 _ Hp).
           apply elem_of_union_l, elem_of_list_to_set, Hp'.
        -- intros p Hp. apply elem_of_app in Hp as [Hp|Hp]; [|by apply Hf3].
           intros Hin. apply (Hf4 _ Hp). by apply elem_of_union_r.
      * apply sweep_inv in H3 as (n3 & E3 & Hnd3 & Hf3 & _).
        exists (n3 ++ n2 ++ n1).
        rewrite E3, E2, E1, <- !app_assoc, !pairs_of_app, P1, P2, !app_nil_r.
        done.
    + apply bind_inv in H as [([] & w2 & H2 & H)|(e & H2 & _)].
      * apply act_no_pair in H2 as (n2 & E2 & P2); [|done].
        apply IH in H as (n3 & E3 & Hnd3 & Hf3).
        exists (n3 ++ n2 ++ n1).
        rewrite E3, E2, E1, <- !app_assoc, !pairs_of_app, P1, P2, !app_nil_r.
        done.
      * apply act_no_pair in H2 as (n2 & E2 & P2); [|done].
        exists (n2 ++ n1). rewrite E2, E1, app_assoc, pairs_of_app, P1, P2.
        split; [done|]. split; [constructor|].
        intros p Hp. by apply elem_of_nil in Hp.
Qed.

(** *** A step whose sweeps return the same reading *)

Lemma valid_pairs_cons oor data angle angles :
  valid_pairs oor data (angle :: angles)
  = match valid_pair oor data angle with
    | Some p => p :: valid_pairs oor data angles
    | None => valid_pairs oor data angles
    end.
Proof. reflexivity. Qed.

Lemma valid_pairs_length oor data angles :
  (length (valid_pairs oor data angles) <= length angles)%nat.
Proof.
  induction angles as [|a angles IH]; [done|].
  rewrite valid_pairs_cons. destruct (valid_pair oor data a); cbn; lia.
Qed.

Lemma valid_pairs_angle oor data angles p :
  p ∈ valid_pairs oor data angles -> p.1 ∈ angles /\ data !! p.1 = Some p.2
                                     /\ p.2 <> oor.
Proof.
  unfold valid_pairs. intros Hp.
  apply list_elem_of_omap in Hp as (a & Ha & Hv).
  unfold valid_pair in Hv. destruct (data !! a) as [d|] eqn:Hd; [|done].
  destruct (decide (d = oor)); [done|]. injection Hv as <-. done.
Qed.

(** The first sweep of a step writes every valid pair of the reading, in the
    order of the angles. *)
Lemma sweep_ret_fresh rot data angles seen w seen' w' :
  NoDup angles ->
  (forall a d, a ∈ angles -> (a, d) ∉ seen) ->
  sweep E rot data angles seen w = Some (Ret seen', w') ->
  exists new,
    events w' = new ++ events w
    /\ rev (pairs_of new) = valid_pairs (out_of_range E) data angles
    /\ seen' = list_to_set (valid_pairs (out_of_range E) data angles) ∪ seen.
Proof.
  revert seen w. induction angles as [|angle angles IH]; intros seen w Hnd Hfresh.
  - cbn. intros [= <- <-]. exists []. cbn. split; [done|]. split; [done|].
    by rewrite (left_id_L ∅ (∪)).
  - cbn [sweep]. intros H. apply NoDup_cons in Hnd as [Hnotin Hnd].
    apply bind_inv in H as [(distance & w1 & H1 & H)|(e & _ & ?)];
      [|discriminate].
    unfold lift, getitem in H1. rewrite valid_pairs_cons. unfold valid_pair.
    destruct (data !! angle) as [d|]; [|discriminate].
    injection H1 as <- <-.
    assert (Hrest : forall a d', a ∈ angles -> (a, d') ∉ seen).
    { intros a d' Ha. apply Hfresh. by apply list_elem_of_further. }
    destruct (decide (d = out_of_range E)); [by apply IH|].
    destruct (decide ((angle, d) ∈ seen)) as [Hin|_].
    { exfalso. apply (Hfresh angle d); [apply list_elem_of_here|done]. }
    apply bind_inv in H as [([] & w1 & H1 & H)|(e & _ & ?)]; [|discriminate].
    apply act_inv in H1 as [(_ & E1 & _)|(? & _)]; [|discriminate].
    apply IH in H as (new & E2 & Hrev & Hseen); [|done|].
    + exists (new ++ [CsvWriteRow 1 angle d rot]).
      rewrite E2, E1, <- app_assoc, pairs_of_app, rev_app_distr, Hrev.
      split; [done|]. split; [done|].
      rewrite Hseen, list_to_set_cons. by rewrite (assoc_L (∪)), (comm_L (∪) _ {[_]}).
    + intros a d' Ha Hin.
      apply elem_of_union in Hin as [Hin|Hin].
      * apply elem_of_singleton in Hin. injection Hin as -> _. done.
      * apply (Hfresh a d'); [by apply list_elem_of_further|done].
Qed.

(** A later sweep of the same reading writes nothing. *)
Lemma sweep_ret_seen rot data angles seen w seen' w' :
  (forall p, p ∈ valid_pairs (out_of_range E) data angles -> p ∈ seen) ->
  sweep E rot data angles seen w = Some (Ret seen', w') ->
  w' = w /\ seen' = seen.
Proof.
  revert w. induction angles as [|angle angles IH]; intros w Hall.
  - cbn. by intros [= <- <-].
  - cbn [sweep]. intros H.
    apply bind_inv in H as [(distance & w1 & H1 & H)|(e & _ & ?)];
      [|discriminate].
    unfold lift, getitem in H1. rewrite valid_pairs_cons in Hall.
    unfold valid_pair in Hall.
    destruct (data !! angle) as [d|]; [|discriminate].
    injection H1 as <- <-.
    destruct (decide (d = out_of_range E)); [by apply IH|].
    destruct (decide ((angle, d) ∈ seen)) as [_|Hnin].
    + apply IH; [|done]. intros p Hp. apply Hall. by apply list_elem_of_further.
    + exfalso. apply Hnin, Hall, list_elem_of_here.
Qed.

Lemma sample_ret data fuel rot seen k w w' :
  (forall history, get_data E history = data) ->
  (k = 0%nat /\ seen = ∅)
  \/ ((1 <= k)%nat
      /\ forall p, p ∈ valid_pairs (out_of_range E) data (seq 0 180) -> p ∈ seen) ->
  sample E fuel rot seen k w = Some (Ret tt, w') ->
  exists new,
    events w' = new ++ events w
    /\ rev (pairs_of new)
       = match k with
         | O => valid_pairs (out_of_range E) data (seq 0 180)
         | S _ => []
         end.
Proof.
  intros Hdata. revert seen k w.
  induction fuel as [|fuel IH]; intros seen k w Hk.
  - rewrite sample_O. destruct k as [|[|k]]; [discriminate..|].
    cbn. intros [= <-]. by exists [].
  - rewrite sample_S. destruct k as [|[|k]].
    3:{ cbn. intros [= <-]. by exists []. }
    all: change (_ <? scans_per_step)%nat with true; cbv iota; intros H.
    all: apply bind_inv in H as [([] & w1 & H1 & H)|(e & _ & ?)];
      [|discriminate].
    all: apply act_no_pair in H1 as (n1 & E1 & P1); [|done].
    all: apply bind_inv in H as [(avail & w2 & H2 & H)|(e & _ & ?)];
      [|discriminate].
    all: injection H2 as <- <-.
    all: destruct (available E (events w1)); cbn [negb] in H.
    all: apply bind_inv in H as [([] & w2 & H2 & H)|(e & _ & ?)];
      [|discriminate].
    all: apply act_no_pair in H2 as (n2 & E2 & P2); [|done].
    + apply bind_inv in H as [(data' & w3 & H3 & H)|(e & _ & ?)];
        [|discriminate].
      injection H3 as <- <-. rewrite Hdata in H.
      apply bind_inv in H as [(seen' & w3 & H3 & H)|(e & _ & ?)];
        [|discriminate].
      destruct Hk as [[_ ->]|[Hk _]]; [|lia].
      apply sweep_ret_fresh in H3 as (n3 & E3 & Hrev & ->).
      2:{ apply NoDup_seq. }
      2:{ intros a d _. apply not_elem_of_empty. }
      apply IH in H as (n4 & E4 & P4).
      2:{ right. split; [lia|]. intros p Hp.
          by apply elem_of_union_l, elem_of_list_to_set. }
      exists (n4 ++ n3 ++ n2 ++ n1).
      rewrite E4, E3, E2, E1, <- !app_assoc. split; [done|].
      rewrite !pairs_of_app, P1, P2, !app_nil_r, rev_app_distr, Hrev, P4.
      by rewrite app_nil_r.
    + apply IH in H as (n3 & E3 & P3); [|done].
      exists (n3 ++ n2 ++ n1).
      rewrite E3, E2, E1, <- !app_assoc. split; [done|].
      by rewrite !pairs_of_app, P1, P2, !app_nil_r.
    + apply bind_inv in H as [(data' & w3 & H3 & H)|(e & _ & ?)];
        [|discriminate].
      injection H3 as <- <-. rewrite Hdata in H.
      apply bind_inv in H as [(seen' & w3 & H3 & H)|(e & _ & ?)];
        [|discriminate].
      destruct Hk as [[? _]|[_ Hseen]]; [lia|].
      apply sweep_ret_seen in H3 as [-> ->]; [|done].
      apply IH in H as (n4 & E4 & P4).
      2:{ right. split; [lia|done]. }
      exists (n4 ++ n2 ++ n1).
      rewrite E4, E2, E1, <- !app_assoc. split; [done|].
      rewrite !pairs_of_app, P1, P2, !app_nil_r. exact P4.
    + apply IH in H as (n3 & E3 & P3); [|done].
      exists (n3 ++ n2 ++ n1).
      rewrite E3, E2, E1, <- !app_assoc. split; [done|].
      by rewrite !pairs_of_app, P1, P2, !app_nil_r.
Qed.

End ScanFacts.

(** ** The sample logs of the examples *)

Section ExampleLogs.
Local Open Scope R_scope.
Import Reconstruction LogSpec.

Lemma well_shaped_four_fields fos (rows : list csv_row) :
  Forall (fun row => (4 <= length row)%nat) rows -> well_shaped fos rows.
Proof.
  intros Hall row Hin _. by apply (proj1 (Forall_forall _ _) Hall).
Qed.

Lemma sentinel_log_samples :
  samples_of float_of_digits (tail sentinel_log) = [(0, 32768, 0); (0, 1000, 0)].
Proof. reflexivity. Qed.

Lemma malformed_log_samples :
  samples_of float_of_digits (tail malformed_log) = [(0, 1000, 0); (0, 2000, 0)].
Proof. reflexivity. Qed.

Lemma short_malformed_log_samples :
  samples_of float_of_digits (tail short_malformed_log)
  = [(0, 1000, 0); (0, 2000, 0)].
Proof. reflexivity. Qed.

(** The log with a sentinel row loads, and its first point is the
    conversion of that row. *)
Lemma sentinel_log_loads convert :
  exists cps,
    Reconstruction.load_csv_data float_of_digits convert sentinel_log
    = Ret (cps, [convert 0 32768 0; convert 0 1000 0])
    /\ map position cps = [convert 0 32768 0; convert 0 1000 0].
Proof.
  destruct (load_returns float_of_digits convert header (tail sentinel_log)
              (0, 32768, 0) (0, 1000, 0)) as (cps & Hl & Hp).
  - apply well_shaped_four_fields. repeat constructor.
  - rewrite sentinel_log_samples. apply list_elem_of_here.
  - rewrite sentinel_log_samples. apply list_elem_of_further, list_elem_of_here.
  - cbn. lra.
  - rewrite sentinel_log_samples in Hl, Hp. exists cps. split; assumption.
Qed.

Lemma malformed_log_loads convert :
  exists cps,
    Reconstruction.load_csv_data float_of_digits convert malformed_log
    = Ret (cps, [convert 0 1000 0; convert 0 2000 0]).
Proof.
  destruct (load_returns float_of_digits convert header (tail malformed_log)
              (0, 1000, 0) (0, 2000, 0)) as (cps & Hl & Hp).
  - apply well_shaped_four_fields. repeat constructor.
  - rewrite malformed_log_samples. apply list_elem_of_here.
  - rewrite malformed_log_samples. apply list_elem_of_further, list_elem_of_here.
  - cbn. lra.
  - rewrite malformed_log_samples in Hl. exists cps. assumption.
Qed.

Lemma short_malformed_log_loads convert :
  exists cps,
    Reconstruction.load_csv_data float_of_digits convert short_malformed_log
    = Ret (cps, [convert 0 1000 0; convert 0 2000 0]).
Proof.
  destruct (load_returns float_of_digits convert header
              (tail short_malformed_log)
              (0, 1000, 0) (0, 2000, 0)) as (cps & Hl & Hp).
  - intros row Hin Hm. cbn in Hin.
    repeat (apply elem_of_cons in Hin as [->|Hin]); try (cbn; lia).
    + vm_compute in Hm. discriminate Hm.
    + by apply elem_of_nil in Hin.
  - rewrite short_malformed_log_samples. apply list_elem_of_here.
  - rewrite short_malformed_log_samples.
    apply list_elem_of_further, list_elem_of_here.
  - cbn. lra.
  - rewrite short_malformed_log_samples in Hl. exists cps. assumption.
Qed.

(** A log whose rows all carry the same distance runs into the division by
    zero of [distance_to_color]. *)
Lemma one_distance_log_raises convert (f1 f2 f3 f4 : string) s :
  sample_of float_of_digits [f1; f2; f3; f4] = Some s ->
  Reconstruction.load_csv_data float_of_digits convert [header; [f1; f2; f3; f4]]
  = Raise ZeroDivisionError.
Proof.
  intros Hs.
  apply (load_constant_distance float_of_digits convert header _ s []).
  - apply well_shaped_four_fields. repeat constructor.
  - unfold samples_of. cbn [omap list_omap]. by rewrite Hs.
  - intros s' Hs'. by apply elem_of_nil in Hs'.
Qed.

End ExampleLogs.

(** ** PointCloudBuilder: what [load_csv_data] guarantees *)

Section PointCloudBuilder.
Local Open Scope R_scope.
Import Reconstruction LogSpec.

(** C8. A row whose angle, distance or rotation field fails numeric parsing
    is skipped and the run goes on: loading a log gives the same result as
    loading it with those rows removed, and when the load returns, its points
    are the conversions of exactly the rows whose three fields parse, in the
    order of the log, each colored point at the position of its point. *)
Theorem malformed_rows_skipped (float_of_string : string -> option R)
    (h : csv_row) (rows : list csv_row) :
  ConvertAdjust.load_csv_data float_of_string (h :: rows)
  = ConvertAdjust.load_csv_data float_of_string
      (h :: filter (fun row => malformed float_of_string row = false) rows)
  /\ forall cps ps,
       ConvertAdjust.load_csv_data float_of_string (h :: rows) = Ret (cps, ps) ->
       ps = map (convert_sample ConvertAdjust.convert_to_cartesian)
                (samples_of float_of_string rows)
       /\ map position cps = ps.
Proof.
  split.
  - apply load_filter.
  - intros cps ps. apply load_ret_points.
Qed.

Lemma malformed_rows_skipped_witness :
  exists cps ps,
    ConvertAdjust.load_csv_data float_of_digits malformed_log = Ret (cps, ps)
    /\ ps = [ConvertAdjust.convert_to_cartesian 0 1000 0;
             ConvertAdjust.convert_to_cartesian 0 2000 0]
    /\ map position cps = ps.
Proof.
  destruct (malformed_log_loads ConvertAdjust.convert_to_cartesian)
    as (cps & Hl).
  exists cps, [ConvertAdjust.convert_to_cartesian 0 1000 0;
               ConvertAdjust.convert_to_cartesian 0 2000 0].
  split; [exact Hl|]. split; [reflexivity|].
  exact (proj2 (proj2 (malformed_rows_skipped float_of_digits header
                         (tail malformed_log)) _ _ Hl)).
Defined.


(** C6, as stated, fails.  An all-sentinel log does not fail with the
    empty-input error, and a log with one valid sample does not load: in
    both, all distances are equal and colouring divides by zero. *)
Lemma load_csv_data_not_empty_input_error :
  ConvertAdjust.load_csv_data float_of_digits all_sentinel_log
  = Raise ZeroDivisionError
  /\ ConvertAdjust.load_csv_data float_of_digits all_sentinel_log
     <> Raise no_valid_points
  /\ sample_of float_of_digits ["1"; "90"; "1000"; "0"]%string
     = Some (90, 1000, 0)
  /\ ~ Py.returns (ConvertAdjust.load_csv_data float_of_digits single_row_log).
Proof.
  assert (H1 : ConvertAdjust.load_csv_data float_of_digits all_sentinel_log
               = Raise ZeroDivisionError).
  { apply (one_distance_log_raises _ _ _ _ _ (0, 32768, 0)). reflexivity. }
  assert (H2 : ConvertAdjust.load_csv_data float_of_digits single_row_log
               = Raise ZeroDivisionError).
  { apply (one_distance_log_raises _ _ _ _ _ (90, 1000, 0)). reflexivity. }
  split; [exact H1|]. split; [rewrite H1; discriminate|].
  split; [reflexivity|].
  rewrite H2. intros [a Ha]. discriminate.
Qed.

(** C6, amended.  In both source files [load_csv_data] raises
    [ValueError("No valid points found in the CSV file.")] exactly when every
    data row fails numeric parsing, in particular on a log with only its
    header; rows at the sentinel distance are rows like any other.  It
    returns whenever no row is short of a field it reads and two of the
    parsed rows differ in distance. *)
Theorem load_csv_data_empty_input (float_of_string : string -> option R)
    (h : csv_row) (rows : list csv_row) (clockwise : bool) :
  (ConvertAdjust.load_csv_data float_of_string (h :: rows)
   = Raise no_valid_points
   <-> forall row, row ∈ rows -> malformed float_of_string row = true)
  /\ (ConvertAdjustEtTuLidar.load_csv_data float_of_string (h :: rows) clockwise
      = Raise no_valid_points
      <-> forall row, row ∈ rows -> malformed float_of_string row = true)
  /\ ConvertAdjust.load_csv_data float_of_string [h] = Raise no_valid_points
  /\ ConvertAdjustEtTuLidar.load_csv_data float_of_string [h] clockwise
     = Raise no_valid_points
  /\ (well_shaped float_of_string rows ->
      forall a b,
        a ∈ samples_of float_of_string rows ->
        b ∈ samples_of float_of_string rows ->
        distance_of a <> distance_of b ->
        Py.returns (ConvertAdjust.load_csv_data float_of_string (h :: rows))
        /\ Py.returns (ConvertAdjustEtTuLidar.load_csv_data float_of_string
                         (h :: rows) clockwise)).
Proof.
  unfold ConvertAdjust.load_csv_data, ConvertAdjustEtTuLidar.load_csv_data.
  repeat split.
  - apply load_no_valid_points_inv.
  - apply load_no_samples.
  - apply load_no_valid_points_inv.
  - apply load_no_samples.
  - destruct (load_returns float_of_string ConvertAdjust.convert_to_cartesian
                h rows a b) as (cps & Hl & _); try assumption.
    eexists. exact Hl.
  - destruct (load_returns float_of_string
                (fun angle distance rotation =>
                   ConvertAdjustEtTuLidar.convert_to_cartesian
                     angle distance rotation clockwise)
                h rows a b) as (cps & Hl & _); try assumption.
    eexists. exact Hl.
Qed.

Lemma load_csv_data_empty_input_witness :
  well_shaped float_of_digits (tail sentinel_log)
  /\ (0, 32768, 0) ∈ samples_of float_of_digits (tail sentinel_log)
  /\ (0, 1000, 0) ∈ samples_of float_of_digits (tail sentinel_log)
  /\ distance_of (0, 32768, 0) <> distance_of (0, 1000, 0)
  /\ Py.returns (ConvertAdjust.load_csv_data float_of_digits sentinel_log)
  /\ Py.returns (ConvertAdjustEtTuLidar.load_csv_data float_of_digits
                   sentinel_log true).
Proof.
  assert (Hw : well_shaped float_of_digits (tail sentinel_log)).
  { apply well_shaped_four_fields. repeat constructor. }
  assert (Ha : (0, 32768, 0) ∈ samples_of float_of_digits (tail sentinel_log)).
  { rewrite sentinel_log_samples. apply list_elem_of_here. }
  assert (Hb : (0, 1000, 0) ∈ samples_of float_of_digits (tail sentinel_log)).
  { rewrite sentinel_log_samples.
    apply list_elem_of_further, list_elem_of_here. }
  assert (Hd : distance_of (0, 32768, 0) <> distance_of (0, 1000, 0)).
  { cbn. lra. }
  repeat (split; [assumption|]).
  exact (proj2 (proj2 (proj2 (proj2
           (load_csv_data_empty_input float_of_digits header
              (tail sentinel_log) true)))) Hw _ _ Ha Hb Hd).
Defined.

(** C10, as stated, fails: a row with fewer than four fields whose angle
    field is not a number is skipped like any malformed row, because
    [float(row[1])] raises [ValueError] before a missing column is indexed;
    the load goes on and returns the other two points. *)
Lemma short_malformed_row_is_skipped :
  (length ["1"; "abc"]%string < 4)%nat
  /\ ["1"; "abc"]%string ∈ tail short_malformed_log
  /\ exists cps,
       ConvertAdjust.load_csv_data float_of_digits short_malformed_log
       = Ret (cps, [ConvertAdjust.convert_to_cartesian 0 1000 0;
                    ConvertAdjust.convert_to_cartesian 0 2000 0]).
Proof.
  split; [cbn; lia|]. split; [apply list_elem_of_here|].
  apply short_malformed_log_loads.
Qed.

(** C10, amended.  A data row with fewer than four fields whose present
    angle, distance and rotation fields all parse makes [load_csv_data]
    raise [IndexError], in both source files and wherever the row stands:
    the error is not caught and no point collection is returned. *)
Theorem short_row_aborts_load (float_of_string : string -> option R)
    (h : csv_row) (rows : list csv_row) (row : csv_row) (clockwise : bool) :
  row ∈ rows -> (length row < 4)%nat ->
  malformed float_of_string row = false ->
  ConvertAdjust.load_csv_data float_of_string (h :: rows) = Raise IndexError
  /\ ConvertAdjustEtTuLidar.load_csv_data float_of_string (h :: rows) clockwise
     = Raise IndexError.
Proof.
  intros Hin Hl Hm. split; by apply (load_index_error _ _ _ _ row).
Qed.

Lemma short_row_aborts_load_witness :
  ["1"; "90"]%string ∈ tail short_log
  /\ (length ["1"; "90"]%string < 4)%nat
  /\ malformed float_of_digits ["1"; "90"]%string = false
  /\ ConvertAdjust.load_csv_data float_of_digits short_log = Raise IndexError
  /\ ConvertAdjustEtTuLidar.load_csv_data float_of_digits short_log true
     = Raise IndexError.
Proof.
  assert (Hin : ["1"; "90"]%string ∈ tail short_log) by apply list_elem_of_here.
  assert (Hl : (length ["1"; "90"]%string < 4)%nat) by (cbn; lia).
  assert (Hm : malformed float_of_digits ["1"; "90"]%string = false)
    by reflexivity.
  repeat (split; [assumption|]).
  exact (short_row_aborts_load float_of_digits header (tail short_log)
           ["1"; "90"]%string true Hin Hl Hm).
Defined.

End PointCloudBuilder.

(** ** ScanController: what the scan script guarantees *)

Section ScanController.
Import Scan.

(** C2. Whatever the sensor and the user do, the [(angle, distance)] pairs a
    rotation step writes to the log are pairwise distinct.  With the script's
    [scans_per_step = 2]: when the step completes and its sweeps returned
    the same reading, the pairs written are, in order, one per angle of
    [0, 180) whose reading is not the out-of-range value; at most 180. *)
Theorem step_samples_unique (E : env) (fuel step : nat) (w : world)
    (r : result unit) (w' : world) :
  scan_step E fuel step w = Some (r, w') ->
  exists new,
    events w' = new ++ events w
    /\ NoDup (pairs_of new)
    /\ scans_per_step = 2%nat
    /\ forall data,
         r = Ret tt ->
         (forall history, get_data E history = data) ->
         rev (pairs_of new) = valid_pairs (out_of_range E) data (seq 0 180)
         /\ (length (pairs_of new) <= 180)%nat.
Proof.
  unfold scan_step. intros H.
  apply bind_inv in H as [([] & w1 & H1 & H)|(e & H1 & ->)].
  - pose proof H1 as H1'.
    apply sample_inv in H1' as (n1 & E1 & Hnd & _).
    assert (Htail : exists n2, events w' = n2 ++ events w1 /\ pairs_of n2 = []).
    { apply bind_inv in H as [([] & w2 & H2 & H)|(e & H2 & _)].
      - apply send_motor_cmd_no_pair in H2 as (n2 & E2 & P2).
        apply act_no_pair in H as (n3 & E3 & P3); [|done].
        exists (n3 ++ n2). rewrite E3, E2, app_assoc, pairs_of_app, P2, P3. done.
      - by apply send_motor_cmd_no_pair in H2. }
    destruct Htail as (n2 & E2 & P2).
    exists (n2 ++ n1). rewrite E2, E1, app_assoc, pairs_of_app, P2. cbn [app].
    split; [done|]. split; [done|]. split; [reflexivity|].
    intros data _ Hdata.
    apply (sample_ret E data) in H1 as (n1' & E1' & Hrev); [|done|by left].
    rewrite E1 in E1'. apply app_inv_tail in E1'. subst n1'.
    split; [exact Hrev|].
    rewrite <- length_rev, Hrev.
    etransitivity; [apply valid_pairs_length|]. by rewrite length_seq.
  - apply sample_inv in H1 as (n1 & E1 & Hnd & _).
    exists n1. split; [done|]. split; [done|]. split; [reflexivity|].
    intros data [=].
Qed.

Lemma step_samples_unique_witness :
  exists w',
    scan_step steady 2 0 start = Some (Ret tt, w')
    /\ exists new,
         events w' = new ++ events start
         /\ NoDup (pairs_of new)
         /\ rev (pairs_of new) = valid_pairs 32768 (repeat 100%Z 180) (seq 0 180)
         /\ (length (pairs_of new) <= 180)%nat.
Proof.
  assert (Hrun : exists w', scan_step steady 2 0 start = Some (Ret tt, w'))
    by (eexists; vm_compute; reflexivity).
  destruct Hrun as [w' Hrun]. exists w'. split; [exact Hrun|].
  destruct (step_samples_unique steady 2 0 start (Ret tt) w' Hrun)
    as (new & He & Hnd & _ & Hsame).
  destruct (Hsame (repeat 100%Z 180) eq_refl (fun _ => eq_refl)) as [Hrev Hlen].
  exists new. repeat split; assumption.
Defined.






End ScanController.

(** * Further properties of the code *)

(** ** Geometry of [convert_to_cartesian] *)

Section TransformGeometry.
Local Open Scope R_scope.

Ltac by_components :=
  repeat match goal with
         | |- (_, _) = (_, _) => apply f_equal2
         end; try ring.

Lemma radians_opp x : radians (- x) = - radians x.
Proof. unfold radians. lra. Qed.







(** X2. The counterclockwise conversion is the clockwise conversion of the
    negated rotation, and it is the mirror image in [x] of the clockwise
    conversion of the same rotation: [y] and [z] agree, [x] changes sign. *)
Theorem counterclockwise_is_mirror angle distance rotation :
  ConvertAdjustEtTuLidar.convert_to_cartesian angle distance rotation false
  = ConvertAdjustEtTuLidar.convert_to_cartesian angle distance (- rotation) true
  /\ (let '(x, y, z) :=
        ConvertAdjustEtTuLidar.convert_to_cartesian angle distance rotation
          true in
      ConvertAdjustEtTuLidar.convert_to_cartesian angle distance rotation false
      = (- x, y, z)).
Proof.
  unfold ConvertAdjustEtTuLidar.convert_to_cartesian. cbv zeta.
  rewrite radians_opp, sin_neg, cos_neg. split; [reflexivity|].
  by_components.
Qed.



End TransformGeometry.

(** ** The gradient of [distance_to_color] *)

Section Gradient.
Local Open Scope R_scope.

Lemma int_mono x y : 0 <= x <= y -> (int x <= int y)%Z.
Proof.
  intros [Hx Hxy]. unfold int.
  destruct (Rle_dec 0 x) as [_|Hn]; [|contradiction].
  destruct (Rle_dec 0 y) as [_|Hn]; [|exfalso; apply Hn; lra].
  destruct (base_Int_part x) as [Hx1 _].
  destruct (base_Int_part y) as [_ Hy2].
  assert (Hlt : (Int_part x < Int_part y + 1)%Z).
  { apply lt_IZR. rewrite plus_IZR. lra. }
  lia.
Qed.

Lemma int_IZR (n : Z) : (0 <= n)%Z -> int (IZR n) = n.
Proof.
  intros Hn. apply int_nonneg; [lra|]. apply (IZR_le 0). exact Hn.
Qed.

Lemma py_clamp_mono x y :
  x <= y -> py_max 0 (py_min 1 x) <= py_max 0 (py_min 1 y).
Proof.
  intros Hxy. rewrite !py_clamp_Rmax_Rmin.
  apply Rmax_case_strong; apply Rmax_case_strong;
    apply Rmin_case_strong; apply Rmin_case_strong; lra.
Qed.

Lemma py_clamp_low x : x <= 0 -> py_max 0 (py_min 1 x) = 0.
Proof.
  intros Hx. unfold py_max, py_min.
  destruct (Rlt_dec x 1); [|lra]. destruct (Rlt_dec 0 x); lra.
Qed.

Lemma py_clamp_high x : 1 <= x -> py_max 0 (py_min 1 x) = 1.
Proof.
  intros Hx. unfold py_max, py_min.
  destruct (Rlt_dec x 1); [lra|]. destruct (Rlt_dec 0 1); lra.
Qed.



(** The colour of a parameter [n] already clamped. *)
Lemma distance_to_color_channels d lo hi r g b :
  Reconstruction.distance_to_color d lo hi = Ret (r, g, b) ->
  ColorSpec.channel r /\ ColorSpec.channel g /\ ColorSpec.channel b.
Proof.
  unfold Reconstruction.distance_to_color, truediv.
  destruct (Req_dec_T (hi - lo) 0) as [Hz|Hne]; [discriminate|].
  rewrite bind_Ret. intros [= <- <- <-].
  pose proof (py_clamp_range ((d - lo) / (hi - lo))) as Hn.
  set (n := py_max 0 (py_min 1 ((d - lo) / (hi - lo)))) in *.
  assert (Hg : 0 <= 1 - Rabs (n - 0.5) * 2 <= 1).
  { unfold Rabs. destruct (Rcase_abs (n - 0.5)); lra. }
  repeat split; apply int_range; lra.
Qed.

Lemma color_low d lo hi :
  lo < hi -> d <= lo ->
  Reconstruction.distance_to_color d lo hi = Ret (0, 0, 255)%Z.
Proof.
  intros Hlt Hd.
  assert (Hinv : 0 < / (hi - lo)) by (apply Rinv_0_lt_compat; lra).
  rewrite distance_to_color_unfold by lra. cbv zeta.
  rewrite py_clamp_low.
  2:{ unfold Rdiv. nra. }
  replace (Rabs (0 - 0.5)) with 0.5
    by (unfold Rabs; destruct (Rcase_abs (0 - 0.5)); lra).
  rewrite (int_nonneg (255 * 0) 0), (int_nonneg (255 * (1 - 0.5 * 2)) 0),
    (int_nonneg (255 * (1 - 0)) 255) by lra.
  reflexivity.
Qed.

Lemma color_high d lo hi :
  lo < hi -> hi <= d ->
  Reconstruction.distance_to_color d lo hi = Ret (255, 0, 0)%Z.
Proof.
  intros Hlt Hd.
  rewrite distance_to_color_unfold by lra. cbv zeta.
  rewrite py_clamp_high.
  2:{ apply (Rmult_le_reg_r (hi - lo)); [lra|].
      unfold Rdiv. rewrite Rmult_assoc, Rinv_l by lra. lra. }
  replace (Rabs (1 - 0.5)) with 0.5
    by (unfold Rabs; destruct (Rcase_abs (1 - 0.5)); lra).
  rewrite (int_nonneg (255 * 1) 255), (int_nonneg (255 * (1 - 0.5 * 2)) 0),
    (int_nonneg (255 * (1 - 1)) 0) by lra.
  reflexivity.
Qed.



Lemma example_color_near :
  ConvertAdjust.distance_to_color 1000 1000 2000 = Ret (0, 0, 255)%Z.
Proof. apply color_low; lra. Qed.

Lemma example_color_far :
  ConvertAdjust.distance_to_color 2000 1000 2000 = Ret (255, 0, 0)%Z.
Proof. apply color_high; lra. Qed.

(** X6. For [min_distance < max_distance] the red channel never decreases
    and the blue channel never increases as the distance grows. *)
Theorem gradient_monotone d1 d2 lo hi r1 g1 b1 r2 g2 b2 :
  lo < hi -> d1 <= d2 ->
  ConvertAdjust.distance_to_color d1 lo hi = Ret (r1, g1, b1) ->
  ConvertAdjust.distance_to_color d2 lo hi = Ret (r2, g2, b2) ->
  (r1 <= r2)%Z /\ (b2 <= b1)%Z.
Proof.
  intros Hlt Hd. unfold ConvertAdjust.distance_to_color.
  rewrite !distance_to_color_unfold by lra. cbv zeta.
  intros [= <- <- <-] [= <- <- <-].
  assert (Hn : (d1 - lo) / (hi - lo) <= (d2 - lo) / (hi - lo)).
  { unfold Rdiv. apply Rmult_le_compat_r; [|lra].
    left. apply Rinv_0_lt_compat. lra. }
  apply py_clamp_mono in Hn.
  pose proof (py_clamp_range ((d1 - lo) / (hi - lo))).
  pose proof (py_clamp_range ((d2 - lo) / (hi - lo))).
  split; apply int_mono; lra.
Qed.

Lemma gradient_monotone_witness :
  exists r1 g1 b1 r2 g2 b2,
    1000 < 2000 /\ 1000 <= 2000
    /\ ConvertAdjust.distance_to_color 1000 1000 2000 = Ret (r1, g1, b1)
    /\ ConvertAdjust.distance_to_color 2000 1000 2000 = Ret (r2, g2, b2)
    /\ (r1 <= r2)%Z /\ (b2 <= b1)%Z.
Proof.
  assert (H : 1000 < 2000) by lra.
  assert (H' : 1000 <= 2000) by lra.
  pose proof example_color_near as H1.
  pose proof example_color_far as H2.
  exists 0%Z, 0%Z, 255%Z, 255%Z, 0%Z, 0%Z.
  repeat (split; [assumption|]).
  exact (gradient_monotone _ _ _ _ _ _ _ _ _ _ H H' H1 H2).
Defined.



End Gradient.

(** ** The colours of a loaded log *)

Section LoadedColours.
Local Open Scope R_scope.
Import Reconstruction LogSpec.

Variable float_of_string : string -> option R.
Variable convert : R -> R -> R -> point.

Abbreviation load := (Reconstruction.load_csv_data float_of_string convert).
Abbreviation samples_of := (samples_of float_of_string).
Abbreviation convert_sample := (convert_sample convert).

Lemma mapM_color_cons lo hi x y z d (pds : list (point * R)) :
  mapM (color_point lo hi) ((x, y, z, d) :: pds)
  = (distance_to_color d lo hi ≫= fun '(r, g, b) => mret (x, y, z, r, g, b))
    ≫= fun cp => mapM (color_point lo hi) pds
    ≫= fun k => mret (cp :: k).
Proof. reflexivity. Qed.

Lemma mapM_color_Forall2 lo hi (pds : list (point * R)) cps :
  mapM (color_point lo hi) pds = Ret cps ->
  Forall2 (fun pd cp =>
             exists r g b,
               distance_to_color (snd pd) lo hi = Ret (r, g, b)
               /\ cp = (fst pd, r, g, b))
          pds cps.
Proof.
  revert cps. induction pds as [|[[[x y] z] d] pds IH]; intros cps.
  - cbn. intros [= <-]. constructor.
  - rewrite mapM_color_cons.
    destruct (distance_to_color d lo hi) as [[[r g] b]|e] eqn:Hc;
      [|rewrite !bind_Raise; discriminate].
    rewrite bind_Ret. cbv beta iota.
    change (mret (x, y, z, r, g, b)) with (Ret (x, y, z, r, g, b)).
    rewrite bind_Ret.
    match goal with
    | |- (?m ≫= _) = _ -> _ => destruct m as [cps'|e] eqn:Hm
    end; [|rewrite bind_Raise; discriminate].
    rewrite bind_Ret. intros [= <-].
    constructor; [|apply IH; exact Hm].
    exists r, g, b. split; [exact Hc|reflexivity].
Qed.

Lemma Forall2_zip_maps {A} (f : A -> point) (g : A -> R)
    (Q : point * R -> colored_point -> Prop) (l : list A) cps :
  Forall2 Q (zip (map f l) (map g l)) cps ->
  Forall2 (fun a cp => Q (f a, g a) cp) l cps.
Proof.
  revert cps. induction l as [|a l IH]; intros cps H.
  - cbn in H. inversion H. constructor.
  - cbn in H. inversion H as [|? ? ? ? Hq Hrest]; subst.
    constructor; [exact Hq|by apply IH].
Qed.

(** A returned load has a proper range of distances, attained at both ends,
    and every colored point is the position of its sample with the colour of
    its distance in that range. *)
Lemma load_ret_colors h rows cps ps :
  load (h :: rows) = Ret (cps, ps) ->
  exists lo hi,
    lo < hi
    /\ (forall s, s ∈ samples_of rows -> lo <= distance_of s <= hi)
    /\ Forall2 (fun s cp =>
                  exists r g b,
                    distance_to_color (distance_of s) lo hi = Ret (r, g, b)
                    /\ cp = (convert_sample s, r, g, b))
               (samples_of rows) cps
    /\ (exists s, s ∈ samples_of rows /\ distance_of s = lo)
    /\ (exists s, s ∈ samples_of rows /\ distance_of s = hi).
Proof.
  destruct (Reconstruction.read_rows float_of_string convert rows [] [])
    as [[ps' ds']|e] eqn:Hr.
  2:{ unfold Reconstruction.load_csv_data. rewrite Hr. discriminate. }
  rewrite (load_of_read_rows _ _ _ _ _ _ Hr).
  apply read_rows_ret in Hr as [-> ->]. cbn [app].
  destruct (samples_of rows) as [|s ss] eqn:Hs; [discriminate|].
  cbn [map min_list max_list]. rewrite !bind_Ret.
  set (lo := fold_left py_min _ _). set (hi := fold_left py_max _ _).
  destruct (mapM (color_point lo hi) _) as [cps'|e] eqn:Hm;
    [|rewrite bind_Raise; discriminate].
  rewrite bind_Ret. intros [= <- <-].
  destruct (fold_py_min_spec (map distance_of ss) (distance_of s))
    as [Hlo_in Hlo].
  destruct (fold_py_max_spec (map distance_of ss) (distance_of s))
    as [Hhi_in Hhi].
  fold lo in Hlo_in, Hlo. fold hi in Hhi_in, Hhi.
  assert (Hin : forall s', s' ∈ s :: ss ->
                           distance_of s' ∈ distance_of s :: map distance_of ss).
  { intros s' Hs'. change (distance_of s' ∈ map distance_of (s :: ss)).
    by apply list_elem_of_fmap_2. }
  assert (Hattained : forall d, d ∈ distance_of s :: map distance_of ss ->
                                exists s', s' ∈ s :: ss /\ distance_of s' = d).
  { intros d Hd. change (d ∈ map distance_of (s :: ss)) in Hd.
    apply list_elem_of_fmap in Hd as (s' & -> & Hs'). eauto. }
  exists lo, hi. split; [|split; [|split; [|split]]].
  - destruct (Req_dec_T (hi - lo) 0) as [Hz|Hne].
    + exfalso. assert (hi = lo) as Heq by lra. rewrite Heq in Hm.
      cbn [zip_with] in Hm. rewrite mapM_color_degenerate in Hm. discriminate.
    + specialize (Hlo _ Hhi_in). lra.
  - intros s' Hs'. split; [apply Hlo|apply Hhi]; by apply Hin.
  - apply mapM_color_Forall2 in Hm.
    change (convert_sample s :: map convert_sample ss)
      with (map convert_sample (s :: ss)) in Hm.
    change (distance_of s :: map distance_of ss)
      with (map distance_of (s :: ss)) in Hm.
    apply Forall2_zip_maps in Hm. exact Hm.
  - by apply Hattained.
  - by apply Hattained.
Qed.

(** The channels of every colored point of a returned load are bytes. *)
Lemma load_ret_channels h rows cps ps :
  load (h :: rows) = Ret (cps, ps) ->
  Forall (fun cp : colored_point =>
            let '(_, _, _, r, g, b) := cp in
            ColorSpec.channel r /\ ColorSpec.channel g /\ ColorSpec.channel b)
         cps.
Proof.
  intros H. apply load_ret_colors in H as (lo & hi & _ & _ & Hall & _).
  induction Hall as [|s cp ss cps (r & g & b & Hc & ->) _ IH]; constructor.
  - destruct (convert_sample s) as [[x y] z].
    by apply (distance_to_color_channels _ _ _ _ _ _ Hc).
  - exact IH.
Qed.

(** The nearest samples are blue and the farthest red. *)
Lemma load_ret_extremes h rows cps ps i s cp :
  load (h :: rows) = Ret (cps, ps) ->
  samples_of rows !! i = Some s -> cps !! i = Some cp ->
  ((forall s', s' ∈ samples_of rows -> distance_of s <= distance_of s') ->
   cp = (convert_sample s, 0, 0, 255)%Z)
  /\ ((forall s', s' ∈ samples_of rows -> distance_of s' <= distance_of s) ->
      cp = (convert_sample s, 255, 0, 0)%Z).
Proof.
  intros H Hs Hcp.
  apply load_ret_colors in H
    as (lo & hi & Hlt & Hrange & Hall & (sl & Hsl & Hlo) & (sh & Hsh & Hhi)).
  destruct (Forall2_lookup_lr _ _ _ _ _ _ Hall Hs Hcp)
    as (r & g & b & Hc & ->).
  split; intros Hext.
  - rewrite color_low in Hc; [by injection Hc as <- <- <-|exact Hlt|].
    rewrite <- Hlo. by apply Hext.
  - rewrite color_high in Hc; [by injection Hc as <- <- <-|exact Hlt|].
    rewrite <- Hhi. by apply Hext.
Qed.

End LoadedColours.

(** ** What a caller of [load_csv_data] and [generate_ply] can rely on *)

Section LoaderContract.
Local Open Scope R_scope.
Import Reconstruction LogSpec.

(** The conversion of the second file at a fixed rotation sense. *)
Abbreviation convert_lidar clockwise :=
  (fun angle distance rotation =>
     ConvertAdjustEtTuLidar.convert_to_cartesian angle distance rotation
       clockwise).

Abbreviation bytes :=
  (fun cp : colored_point =>
     let '(_, _, _, r, g, b) := cp in
     ColorSpec.channel r /\ ColorSpec.channel g /\ ColorSpec.channel b).

(** X8. Every colored point [load_csv_data] returns has its three channels
    in [0, 255], as the [uchar] properties of the mesh header require; in
    both files. *)
Theorem loaded_colors_are_bytes (float_of_string : string -> option R)
    (h : csv_row) (rows : list csv_row) (clockwise : bool) cps ps :
  (ConvertAdjust.load_csv_data float_of_string (h :: rows) = Ret (cps, ps) ->
   Forall bytes cps)
  /\ (ConvertAdjustEtTuLidar.load_csv_data float_of_string (h :: rows) clockwise
      = Ret (cps, ps) ->
      Forall bytes cps).
Proof.
  split; apply load_ret_channels.
Qed.

Lemma loaded_colors_are_bytes_witness :
  exists cps ps,
    ConvertAdjust.load_csv_data float_of_digits sentinel_log = Ret (cps, ps)
    /\ Forall bytes cps.
Proof.
  destruct (sentinel_log_loads ConvertAdjust.convert_to_cartesian)
    as (cps & Hl & _).
  eexists cps, _. split; [exact Hl|].
  exact (proj1 (loaded_colors_are_bytes float_of_digits header
                  (tail sentinel_log) true cps _) Hl).
Defined.

(** X9. The gradient is relative to the scan: in a returned load, a sample
    no farther than any other sample of the log is colored [(0, 0, 255)] and
    a sample no nearer than any other is colored [(255, 0, 0)], each at the
    position its conversion gives. *)
Theorem nearest_blue_farthest_red (float_of_string : string -> option R)
    (h : csv_row) (rows : list csv_row) cps ps (i : nat) s cp :
  ConvertAdjust.load_csv_data float_of_string (h :: rows) = Ret (cps, ps) ->
  samples_of float_of_string rows !! i = Some s ->
  cps !! i = Some cp ->
  ((forall s', s' ∈ samples_of float_of_string rows ->
               distance_of s <= distance_of s') ->
   cp = (convert_sample ConvertAdjust.convert_to_cartesian s, 0, 0, 255)%Z)
  /\ ((forall s', s' ∈ samples_of float_of_string rows ->
                  distance_of s' <= distance_of s) ->
      cp = (convert_sample ConvertAdjust.convert_to_cartesian s, 255, 0, 0)%Z).
Proof. apply load_ret_extremes. Qed.

Lemma nearest_blue_farthest_red_witness :
  exists cps ps cp,
    ConvertAdjust.load_csv_data float_of_digits sentinel_log = Ret (cps, ps)
    /\ samples_of float_of_digits (tail sentinel_log) !! 1%nat
       = Some (0, 1000, 0)
    /\ cps !! 1%nat = Some cp
    /\ (forall s', s' ∈ samples_of float_of_digits (tail sentinel_log) ->
                   distance_of (0, 1000, 0) <= distance_of s')
    /\ cp = (ConvertAdjust.convert_to_cartesian 0 1000 0, 0, 0, 255)%Z.
Proof.
  destruct (sentinel_log_loads ConvertAdjust.convert_to_cartesian)
    as (cps & Hl & Hp).
  assert (Hcp : exists cp, cps !! 1%nat = Some cp).
  { apply lookup_lt_is_Some_2.
    apply (f_equal length) in Hp. rewrite length_map in Hp. cbn in Hp. lia. }
  destruct Hcp as [cp Hcp].
  assert (Hs : samples_of float_of_digits (tail sentinel_log) !! 1%nat
               = Some (0, 1000, 0)) by reflexivity.
  assert (Hmin : forall s',
             s' ∈ samples_of float_of_digits (tail sentinel_log) ->
             distance_of (0, 1000, 0) <= distance_of s').
  { intros s' Hs'. rewrite sentinel_log_samples in Hs'.
    repeat (apply elem_of_cons in Hs' as [->|Hs']); cbn; try lra.
    by apply elem_of_nil in Hs'. }
  eexists cps, _, cp. split; [exact Hl|]. split; [exact Hs|].
  split; [exact Hcp|]. split; [exact Hmin|].
  exact (proj1 (nearest_blue_farthest_red float_of_digits header
                  (tail sentinel_log) cps _ 1 (0, 1000, 0) cp Hl Hs Hcp)
               Hmin).
Defined.

(** X10. [load_csv_data] returns a point collection exactly when no row is
    short of a field it reads and two of the rows that parse differ in
    distance; so a log whose parsed rows all have the same distance, a
    single row included, never loads.  In both files. *)
Theorem load_returns_iff (float_of_string : string -> option R)
    (h : csv_row) (rows : list csv_row) (clockwise : bool) :
  let loadable :=
    well_shaped float_of_string rows
    /\ exists a b,
         a ∈ samples_of float_of_string rows
         /\ b ∈ samples_of float_of_string rows
         /\ distance_of a <> distance_of b in
  (Py.returns (ConvertAdjust.load_csv_data float_of_string (h :: rows))
   <-> loadable)
  /\ (Py.returns (ConvertAdjustEtTuLidar.load_csv_data float_of_string
                    (h :: rows) clockwise)
      <-> loadable).
Proof.
  assert (Hgen : forall convert,
    Py.returns (Reconstruction.load_csv_data float_of_string convert (h :: rows))
    <-> well_shaped float_of_string rows
        /\ exists a b,
             a ∈ samples_of float_of_string rows
             /\ b ∈ samples_of float_of_string rows
             /\ distance_of a <> distance_of b).
  { intros convert. split.
    - intros [[cps ps] Hl]. split.
      + intros row Hin Hm.
        destruct (le_lt_dec 4 (length row)) as [Hle|Hlt]; [exact Hle|].
        rewrite (load_index_error _ _ h rows row Hin Hm Hlt) in Hl.
        discriminate.
      + apply load_ret_colors in Hl
          as (lo & hi & Hlt & _ & _ & (a & Ha & Hlo) & (b & Hb & Hhi)).
        exists a, b. split; [exact Ha|]. split; [exact Hb|]. lra.
    - intros (Hw & a & b & Ha & Hb & Hab).
      destruct (load_returns float_of_string convert h rows a b Hw Ha Hb Hab)
        as (cps & Hl & _).
      eexists. exact Hl. }
  cbv zeta. split; apply Hgen.
Qed.

Lemma load_returns_iff_witness :
  Py.returns (ConvertAdjust.load_csv_data float_of_digits sentinel_log)
  /\ well_shaped float_of_digits (tail sentinel_log)
  /\ ~ Py.returns (ConvertAdjust.load_csv_data float_of_digits single_row_log).
Proof.
  destruct (sentinel_log_loads ConvertAdjust.convert_to_cartesian)
    as (cps & Hl & _).
  assert (Hr : Py.returns
                 (ConvertAdjust.load_csv_data float_of_digits sentinel_log))
    by (eexists; exact Hl).
  split; [exact Hr|]. split.
  - exact (proj1 (proj1 (proj1 (load_returns_iff float_of_digits header
                                  (tail sentinel_log) true)) Hr)).
  - intros Hs.
    destruct (proj1 (proj1 (load_returns_iff float_of_digits header
                              (tail single_row_log) true)) Hs)
      as (_ & a & b & Ha & Hb & Hab).
    apply Hab. vm_compute in Ha, Hb.
    apply list_elem_of_singleton in Ha, Hb. by subst.
Defined.

(** X11. The mesh written from a loaded log declares as its vertex count
    the number of log rows whose three fields parse, and has exactly that
    many vertex lines after its ten header lines. *)
Theorem ply_counts_parsed_rows (float_of_string : string -> option R)
    (str_float : R -> string) (h : csv_row) (rows : list csv_row) cps ps :
  ConvertAdjust.load_csv_data float_of_string (h :: rows) = Ret (cps, ps) ->
  let n := length (samples_of float_of_string rows) in
  Mesh.generate_ply str_float cps
  = Mesh.ply_header n ++ map (Mesh.ply_vertex str_float) cps
  /\ length (map (Mesh.ply_vertex str_float) cps) = n
  /\ length (Mesh.generate_ply str_float cps) = (10 + n)%nat
  /\ Mesh.generate_ply str_float cps !! 2%nat
     = Some ("element vertex " ++ Mesh.str_int (Z.of_nat n) ++ Mesh.newline)%string.
Proof.
  intros Hl n.
  destruct (load_ret_points _ _ h rows cps ps Hl) as [-> Hp].
  assert (Hlen : length cps = n).
  { apply (f_equal length) in Hp. by rewrite !length_map in Hp. }
  unfold Mesh.generate_ply. rewrite Hlen.
  split; [reflexivity|]. split; [by rewrite length_map|].
  split; [|reflexivity].
  rewrite length_app, length_map, Hlen. reflexivity.
Qed.

Lemma ply_counts_parsed_rows_witness :
  exists cps ps,
    ConvertAdjust.load_csv_data float_of_digits sentinel_log = Ret (cps, ps)
    /\ length (Mesh.generate_ply (fun _ => "0.0"%string) cps) = 12%nat
    /\ Mesh.generate_ply (fun _ => "0.0"%string) cps !! 2%nat
       = Some ("element vertex 2" ++ Mesh.newline)%string.
Proof.
  destruct (sentinel_log_loads ConvertAdjust.convert_to_cartesian)
    as (cps & Hl & _).
  eexists cps, _. split; [exact Hl|].
  destruct (ply_counts_parsed_rows float_of_digits (fun _ => "0.0"%string)
              header (tail sentinel_log) cps _ Hl) as (_ & _ & Hn & H2).
  split; [exact Hn|exact H2].
Defined.

End LoaderContract.

(** ** The scan script, part by part *)

Section ScriptParts.
Import Scan.
Local Open Scope R_scope.

Variable E : env.

Lemma sound_sweep_gen (P : action -> Prop) rot data angles seen :
  (forall angle d, angle ∈ angles -> d <> out_of_range E ->
                   P (CsvWriteRow 1 angle d rot)) ->
  sound P (sweep E rot data angles seen).
Proof.
  revert seen. induction angles as [|angle angles IH]; intros seen HP;
    cbn [sweep].
  - apply sound_ret.
  - assert (HP' : forall a d, a ∈ angles -> d <> out_of_range E ->
                              P (CsvWriteRow 1 a d rot)).
    { intros a d Ha. apply HP. by apply list_elem_of_further. }
    apply sound_bind; [apply sound_lift, getitem_not_interrupt|].
    intros distance.
    destruct (decide (distance = out_of_range E)); [by apply IH|].
    destruct (decide ((angle, distance) ∈ seen)); [by apply IH|].
    apply sound_bind; [|intros _; by apply IH].
    apply sound_act, HP; [apply list_elem_of_here|done].
Qed.

Lemma sound_sample_gen (P : action -> Prop) fuel rot seen k :
  P LidarAvailable -> P (Sleep 10) -> P LidarGetData ->
  (forall angle d, (angle < 180)%nat -> d <> out_of_range E ->
                   P (CsvWriteRow 1 angle d rot)) ->
  sound P (sample E fuel rot seen k).
Proof.
  intros Hav Hsl Hgd Hrow. revert seen k.
  induction fuel as [|fuel IH]; intros seen k.
  - rewrite sample_O. destruct (k <? scans_per_step)%nat; [|apply sound_ret].
    intros w r w'. discriminate.
  - rewrite sample_S. destruct (k <? scans_per_step)%nat; [|apply sound_ret].
    apply sound_bind; [by apply sound_act|]. intros _.
    apply sound_bind; [apply sound_ask|]. intros [|]; cbn [negb].
    + apply sound_bind; [by apply sound_act|]. intros _.
      apply sound_bind; [apply sound_ask|]. intros data.
      apply sound_bind; [|intros seen'; apply IH].
      apply sound_sweep_gen. intros angle d Ha. apply Hrow.
      apply elem_of_seq in Ha. lia.
    + apply sound_bind; [by apply sound_act|]. intros _. apply IH.
Qed.

Lemma sound_scan_steps_gen (P : action -> Prop) fuel range :
  (forall a, loop_call a = true -> pair_of a = None -> P a) ->
  (forall step angle d,
     step ∈ range -> (angle < 180)%nat -> d <> out_of_range E ->
     P (CsvWriteRow 1 angle d (INR step * step_angle))) ->
  sound P (scan_steps E fuel range).
Proof.
  intros Hcall. induction range as [|step range IH]; intros Hrow;
    cbn [scan_steps]; [apply sound_ret|].
  apply sound_bind.
  - unfold scan_step, send_motor_cmd.
    apply sound_bind.
    + apply sound_sample_gen; try (by apply Hcall).
      intros angle d. apply Hrow, list_elem_of_here.
    + intros _. repeat (apply sound_bind; [|intros _]);
        apply sound_act; by apply Hcall.
  - intros _. apply IH. intros s angle d Hs. apply Hrow.
    by apply list_elem_of_further.
Qed.

Lemma sound_setup_gen (P : action -> Prop) :
  (forall a, setup_call a = true -> P a) -> sound P (setup E).
Proof.
  intros HP. unfold setup, send_motor_cmd.
  repeat (apply sound_bind; [|intros _]);
    try (apply sound_act; by apply HP).
  destruct (connect_ok E); [apply sound_ret|].
  intros w r w' [= <- <-]. split; [exists []; auto|].
  split; [discriminate|auto].
Qed.

Lemma sound_cleanup_gen (P : action -> Prop) :
  (forall a, cleanup_call a = true -> P a) -> sound P (cleanup E).
Proof.
  intros HP. unfold cleanup, send_motor_cmd.
  repeat (apply sound_bind; [|intros _]); apply sound_act; by apply HP.
Qed.

(** The rotation of a step lies in the half turn. *)
Lemma rotation_in_half_turn step :
  (step < steps)%nat -> 0 <= INR step * step_angle < 180.
Proof.
  intros Hlt. unfold step_angle.
  assert (Hs : 0 <= INR step) by apply pos_INR.
  assert (Hn : INR step < INR steps) by (by apply lt_INR).
  assert (Hpos : 0 < INR steps) by lra.
  replace (INR step * (180 / INR steps)) with (180 * (INR step / INR steps))
    by (field; lra).
  assert (Hq : 0 <= INR step / INR steps < 1).
  { split.
    - apply Rmult_le_pos; [exact Hs|]. left. by apply Rinv_0_lt_compat.
    - apply (Rmult_lt_reg_r (INR steps)); [exact Hpos|].
      unfold Rdiv. rewrite Rmult_assoc, Rinv_l by lra. lra. }
  lra.
Qed.

(** When everything before the [try] went through, the history is the
    eight calls of the setup. *)
Lemma act_ret a w w' :
  act E a w = Some (Ret tt, w') -> events w' = a :: events w.
Proof.
  intros H. by apply act_inv in H as [(_ & He & _)|(? & _)].
Qed.

Lemma bind_ret_inv {A B} (m : M A) (k : A -> M B) w b w' :
  (m ≫= k) w = Some (Ret b, w') ->
  exists a w1, m w = Some (Ret a, w1) /\ k a w1 = Some (Ret b, w').
Proof.
  intros H. by apply bind_inv in H as [(a & w1 & H1 & H2)|(e & _ & ?)]; eauto.
Qed.

Lemma setup_ret w :
  setup E start = Some (Ret tt, w) -> events w = events armed.
Proof.
  unfold setup, send_motor_cmd. intros H.
  apply bind_ret_inv in H as ([] & w1 & H1 & H). apply act_ret in H1.
  apply bind_ret_inv in H as ([] & w2 & H2 & H).
  assert (w2 = w1) as ->.
  { destruct (connect_ok E); [by injection H2|discriminate]. }
  clear H2.
  apply bind_ret_inv in H as ([] & w3 & H3 & H). apply act_ret in H3.
  apply bind_ret_inv in H as ([] & w4 & H4 & H). apply act_ret in H4.
  apply bind_ret_inv in H as ([] & w7 & Hm & H).
  apply bind_ret_inv in Hm as ([] & w5 & H5 & Hm). apply act_ret in H5.
  apply bind_ret_inv in Hm as ([] & w6 & H6 & H7).
  apply act_ret in H6. apply act_ret in H7.
  apply bind_ret_inv in H as ([] & w8 & H8 & H9).
  apply act_ret in H8. apply act_ret in H9.
  rewrite H9, H8, H7, H6, H5, H4, H3, H1. reflexivity.
Qed.

End ScriptParts.

(** ** What a run of the scan script looks like *)

Section ScriptRuns.
Import Scan.
Local Open Scope R_scope.

(** X12. Every row the scan script writes has quality 1, an angle below
    180, and as rotation the position [step * step_angle] of one of the 400
    steps, which lies in [0, 180); whatever the sensor returns and however
    the run ends. *)
Theorem written_rows_are_scan_rows (E : env) (fuel : nat) (r : result unit)
    (w : world) :
  script E fuel start = Some (r, w) ->
  Forall row_of_scan (events w).
Proof.
  intros H.
  assert (Hsound : sound row_of_scan (script E fuel)).
  { unfold script. apply sound_bind.
    - apply sound_setup_gen. by intros [].
    - intros _. apply sound_try_finally.
      + apply sound_scan_steps_gen.
        * by intros [].
        * intros step angle d Hs Ha _. apply elem_of_seq in Hs. cbn.
          split; [reflexivity|]. split; [exact Ha|].
          exists step. split; [lia|]. split; [reflexivity|].
          apply rotation_in_half_turn. lia.
      + apply sound_cleanup_gen. by intros []. }
  destruct (Hsound _ _ _ H) as ((new & He & Hall) & _).
  cbn in He. rewrite app_nil_r in He. by rewrite He.
Qed.

Lemma written_rows_are_scan_rows_witness :
  exists w,
    script ctrl_c_during_step 2 start = Some (Raise KeyboardInterrupt, w)
    /\ Forall row_of_scan (events w).
Proof.
  assert (Hrun : exists w, script ctrl_c_during_step 2 start
                            = Some (Raise KeyboardInterrupt, w))
    by (eexists; vm_compute; reflexivity).
  destruct Hrun as [w Hrun]. exists w. split; [exact Hrun|].
  exact (written_rows_are_scan_rows ctrl_c_during_step 2 _ w Hrun).
Defined.

(** X13. The calls before the [try] are not covered by the cleanup: when
    connecting fails or an interrupt arrives before the loop is entered, the
    script ends with that exception and none of the cleanup calls
    ([stop_scan], [disconnect], the disarm command, [close]) is made, even
    if the scan was already started. *)
Theorem failure_before_try_skips_cleanup (E : env) (fuel : nat) (e : exn)
    (w : world) :
  setup E start = Some (Raise e, w) ->
  script E fuel start = Some (Raise e, w)
  /\ Forall (fun a => setup_call a = true) (events w)
  /\ ~ LidarStopScan ∈ events w
  /\ ~ LidarDisconnect ∈ events w
  /\ ~ MotorWrite "D" ∈ events w
  /\ ~ CsvClose ∈ events w.
Proof.
  intros H.
  assert (Hall : Forall (fun a => setup_call a = true) (events w)).
  { destruct (sound_setup_gen E (fun a => setup_call a = true)
                (fun a Ha => Ha) _ _ _ H) as ((new & He & Hnew) & _).
    cbn in He. rewrite app_nil_r in He. by rewrite He. }
  split; [|split; [exact Hall|]].
  - unfold script, mbind, M_bind. by rewrite H.
  - rewrite Forall_forall in Hall.
    repeat split; intros Hin; by apply Hall in Hin.
Qed.

Lemma failure_before_try_skips_cleanup_witness :
  exists w,
    setup ctrl_c_while_arming start = Some (Raise KeyboardInterrupt, w)
    /\ script ctrl_c_while_arming 2 start = Some (Raise KeyboardInterrupt, w)
    /\ LidarStartScan ∈ events w
    /\ ~ LidarStopScan ∈ events w.
Proof.
  assert (Hrun : setup ctrl_c_while_arming start
                 = Some (Raise KeyboardInterrupt,
                         {| events := [MotorWrite "R"; Sleep 2000;
                                       LidarStartScan; LidarConnect];
                            pending := false |}))
    by reflexivity.
  eexists. split; [exact Hrun|].
  destruct (failure_before_try_skips_cleanup ctrl_c_while_arming 2 _ _ Hrun)
    as (Hs & _ & Hstop & _).
  split; [exact Hs|]. split; [|exact Hstop].
  cbn. do 2 apply list_elem_of_further. apply list_elem_of_here.
Defined.

(** X14. The history of every run splits, from the newest call back, into
    calls of the [finally] suite, calls of the loop and calls of the setup.
    So a row is written only after the header, and once a cleanup call has
    been made -- [csv_file.close()] in particular -- nothing is written
    anymore.  If the loop or the cleanup made a call at all, the setup went
    through completely. *)
Theorem rows_between_header_and_close (E : env) (fuel : nat)
    (r : result unit) (w : world) :
  script E fuel start = Some (r, w) ->
  exists last_calls loop_calls first_calls,
    events w = last_calls ++ loop_calls ++ first_calls
    /\ Forall (fun a => cleanup_call a = true) last_calls
    /\ Forall (loop_event E) loop_calls
    /\ Forall (fun a => setup_call a = true) first_calls
    /\ (last_calls ++ loop_calls <> [] -> first_calls = events armed).
Proof.
  unfold script. intros H.
  apply bind_inv in H as [([] & w0 & H0 & H)|(e & H0 & ->)].
  - pose proof (setup_ret E _ H0) as Hev0.
    unfold try_finally in H.
    destruct (scan_loop E fuel w0) as [[r1 w1]|] eqn:H1; [|discriminate].
    destruct (cleanup E w1) as [[r2 w2]|] eqn:H2; [|discriminate].
    destruct (sound_scan_steps E fuel _ _ _ _ H1) as ((l & El & Hl) & _).
    destruct (sound_cleanup_gen E (fun a => cleanup_call a = true)
                (fun a Ha => Ha) _ _ _ H2) as ((c & Ec & Hc) & _).
    assert (Hw : events w = c ++ l ++ events armed).
    { destruct r2 as [[]|e]; injection H as _ <-;
        by rewrite Ec, El, Hev0. }
    exists c, l, (events armed). split; [exact Hw|].
    split; [exact Hc|]. split; [exact Hl|]. split; [|done].
    repeat constructor.
  - destruct (sound_setup_gen E (fun a => setup_call a = true)
                (fun a Ha => Ha) _ _ _ H0) as ((s & Es & Hs) & _).
    cbn in Es. rewrite app_nil_r in Es.
    exists [], [], s. split; [by rewrite Es|].
    split; [constructor|]. split; [constructor|]. split; [exact Hs|].
    intros Hne. by destruct Hne.
Qed.

Lemma rows_between_header_and_close_witness :
  exists w last_calls loop_calls first_calls,
    script ctrl_c_during_step 2 start = Some (Raise KeyboardInterrupt, w)
    /\ events w = last_calls ++ loop_calls ++ first_calls
    /\ Forall (fun a => cleanup_call a = true) last_calls
    /\ Forall (loop_event ctrl_c_during_step) loop_calls
    /\ Forall (fun a => setup_call a = true) first_calls.
Proof.
  assert (Hrun : exists w, script ctrl_c_during_step 2 start
                            = Some (Raise KeyboardInterrupt, w))
    by (eexists; vm_compute; reflexivity).
  destruct Hrun as [w Hrun].
  destruct (rows_between_header_and_close ctrl_c_during_step 2 _ w Hrun)
    as (c & l & s & Hw & Hc & Hl & Hs & _).
  exists w, c, l, s. repeat split; assumption.
Defined.

End ScriptRuns.

(** ** Counting rows and step commands *)

Section Counting.
Import Scan.
Local Open Scope R_scope.

Variable E : env.

Lemma step_cmds_app l1 l2 : step_cmds (l1 ++ l2) = (step_cmds l1 + step_cmds l2)%nat.
Proof. unfold step_cmds. by rewrite filter_app, length_app. Qed.

Lemma step_cmds_none l :
  Forall (fun a => is_step_cmd a = false) l -> step_cmds l = 0%nat.
Proof.
  unfold step_cmds. induction 1 as [|a l Ha _ IH]; [reflexivity|].
  rewrite filter_cons_False; [exact IH|]. by rewrite Ha.
Qed.

Lemma act_events a w r w' :
  act E a w = Some (r, w') ->
  (r = Ret tt /\ events w' = [a] ++ events w)
  \/ (r = Raise KeyboardInterrupt /\ events w' = [] ++ events w).
Proof.
  intros H. apply act_inv in H as [(-> & He & _)|(-> & He & _)]; auto.
Qed.

(** One sweep writes at most one row per angle. *)
Lemma sweep_count rot data angles seen w r w' :
  sweep E rot data angles seen w = Some (r, w') ->
  exists new,
    events w' = new ++ events w
    /\ (length (pairs_of new) <= length angles)%nat.
Proof.
  revert seen w. induction angles as [|angle angles IH]; intros seen w;
    cbn [sweep].
  - intros [= <- <-]. by exists [].
  - intros H.
    apply bind_inv in H as [(distance & w1 & H1 & H)|(e & H1 & ->)].
    2:{ injection H1 as _ <-. exists []. cbn. split; [done|lia]. }
    injection H1 as _ <-.
    assert (Hskip : forall s,
              sweep E rot data angles s w = Some (r, w') ->
              exists new, events w' = new ++ events w
                          /\ (length (pairs_of new) <= length (angle :: angles))%nat).
    { intros s Hs. apply IH in Hs as (new & He & Hlen).
      exists new. split; [done|]. cbn. lia. }
    destruct (decide (distance = out_of_range E)); [by eapply Hskip|].
    destruct (decide ((angle, distance) ∈ seen)); [by eapply Hskip|].
    apply bind_inv in H as [([] & w1 & H1 & H)|(e & H1 & ->)].
    + apply act_ret in H1.
      apply IH in H as (new & He & Hlen).
      exists (new ++ [CsvWriteRow 1 angle distance rot]).
      rewrite He, H1, <- app_assoc, pairs_of_app, length_app. cbn.
      split; [done|lia].
    + apply act_events in H1 as [[? _]|[_ He]]; [discriminate|].
      exists []. cbn. split; [done|lia].
Qed.

Lemma sample_count fuel rot seen k w r w' :
  sample E fuel rot seen k w = Some (r, w') ->
  exists new,
    events w' = new ++ events w
    /\ (length (pairs_of new) <= 180 * (scans_per_step - k))%nat.
Proof.
  revert seen k w. induction fuel as [|fuel IH]; intros seen k w.
  - rewrite sample_O. destruct (k <? scans_per_step)%nat; [discriminate|].
    intros [= <- <-]. exists []. cbn. split; [done|lia].
  - rewrite sample_S.
    destruct (Nat.ltb_spec k scans_per_step) as [Hk|Hk].
    2:{ intros [= <- <-]. exists []. cbn. split; [done|lia]. }
    intros H.
    apply bind_inv in H as [([] & w1 & H1 & H)|(e & H1 & _)].
    2:{ apply act_no_pair in H1 as (n1 & E1 & P1); [|done].
        exists n1. rewrite P1. cbn. split; [done|lia]. }
    apply act_no_pair in H1 as (n1 & E1 & P1); [|done].
    apply bind_inv in H as [(avail & w2 & H2 & H)|(e & H2 & _)];
      [|discriminate].
    injection H2 as <- <-.
    destruct (available E (events w1)); cbn [negb] in H.
    + apply bind_inv in H as [([] & w2 & H2 & H)|(e & H2 & _)].
      2:{ apply act_no_pair in H2 as (n2 & E2 & P2); [|done].
          exists (n2 ++ n1). rewrite E2, E1, app_assoc, pairs_of_app, P1, P2.
          cbn. split; [done|lia]. }
      apply act_no_pair in H2 as (n2 & E2 & P2); [|done].
      apply bind_inv in H as [(data & w3 & H3 & H)|(e & H3 & _)];
        [|discriminate].
      injection H3 as <- <-.
      apply bind_inv in H as [(seen' & w3 & H3 & H)|(e & H3 & _)].
      * apply sweep_count in H3 as (n3 & E3 & L3). rewrite length_seq in L3.
        apply IH in H as (n4 & E4 & L4).
        exists (n4 ++ n3 ++ n2 ++ n1).
        rewrite E4, E3, E2, E1, <- !app_assoc, !pairs_of_app, P1, P2,
          !app_nil_r, length_app.
        split; [done|lia].
      * apply sweep_count in H3 as (n3 & E3 & L3). rewrite length_seq in L3.
        exists (n3 ++ n2 ++ n1).
        rewrite E3, E2, E1, <- !app_assoc, !pairs_of_app, P1, P2, !app_nil_r.
        split; [done|lia].
    + apply bind_inv in H as [([] & w2 & H2 & H)|(e & H2 & _)].
      * apply act_no_pair in H2 as (n2 & E2 & P2); [|done].
        apply IH in H as (n3 & E3 & L3).
        exists (n3 ++ n2 ++ n1).
        rewrite E3, E2, E1, <- !app_assoc, !pairs_of_app, P1, P2, !app_nil_r.
        split; [done|lia].
      * apply act_no_pair in H2 as (n2 & E2 & P2); [|done].
        exists (n2 ++ n1). rewrite E2, E1, app_assoc, pairs_of_app, P1, P2.
        cbn. split; [done|lia].
Qed.

(** The sampling of a step sends no step command. *)
Lemma sample_no_step_cmd fuel rot seen k w r w' :
  sample E fuel rot seen k w = Some (r, w') ->
  exists new, events w' = new ++ events w /\ step_cmds new = 0%nat.
Proof.
  intros H.
  destruct (sound_sample_gen E (fun a => is_step_cmd a = false) fuel rot seen k
              eq_refl eq_refl eq_refl (fun _ _ _ _ => eq_refl) _ _ _ H)
    as ((new & He & Hall) & _).
  exists new. split; [exact He|by apply step_cmds_none].
Qed.

(** One step sends one step command when it completes, and at most one
    otherwise. *)
Lemma scan_step_cmds fuel step w r w' :
  scan_step E fuel step w = Some (r, w') ->
  exists new,
    events w' = new ++ events w
    /\ (step_cmds new <= 1)%nat
    /\ (r = Ret tt -> step_cmds new = 1%nat).
Proof.
  unfold scan_step, send_motor_cmd. intros H.
  apply bind_inv in H as [([] & w1 & H1 & H)|(e & H1 & ->)].
  2:{ apply sample_no_step_cmd in H1 as (n1 & E1 & C1).
      exists n1. rewrite C1. split; [done|]. split; [lia|discriminate]. }
  apply sample_no_step_cmd in H1 as (n1 & E1 & C1).
  assert (Hrest :
    exists n2, events w' = n2 ++ events w1
               /\ (step_cmds n2 <= 1)%nat
               /\ (r = Ret tt -> step_cmds n2 = 1%nat)).
  { apply bind_inv in H as [([] & w4 & Hm & H)|(e & Hm & ->)].
    - apply bind_ret_inv in Hm as ([] & w2 & H2 & Hm). apply act_ret in H2.
      apply bind_ret_inv in Hm as ([] & w3 & H3 & H4).
      apply act_ret in H3. apply act_ret in H4.
      apply act_events in H as [[-> He]|[-> He]].
      + exists [Sleep 50; MotorReadline; Sleep 50; MotorWrite "C"].
        rewrite He, H4, H3, H2. split; [done|]. split; [vm_compute; lia|intros _; reflexivity].
      + exists [MotorReadline; Sleep 50; MotorWrite "C"].
        rewrite He, H4, H3, H2. split; [done|]. split; [vm_compute; lia|discriminate].
    - apply bind_inv in Hm as [([] & w2 & H2 & Hm)|(e' & H2 & [= ->])].
      + apply act_ret in H2.
        apply bind_inv in Hm as [([] & w3 & H3 & H4)|(e' & H3 & [= ->])].
        * apply act_ret in H3.
          apply act_events in H4 as [[? _]|[_ He]]; [discriminate|].
          exists [Sleep 50; MotorWrite "C"].
          rewrite He, H3, H2. split; [done|]. split; [vm_compute; lia|discriminate].
        * apply act_events in H3 as [[? _]|[_ He]]; [discriminate|].
          exists [MotorWrite "C"].
          rewrite He, H2. split; [done|]. split; [vm_compute; lia|discriminate].
      + apply act_events in H2 as [[? _]|[_ He]]; [discriminate|].
        exists []. rewrite He. split; [done|]. split; [vm_compute; lia|discriminate]. }
  destruct Hrest as (n2 & E2 & C2 & R2).
  exists (n2 ++ n1). rewrite E2, E1, app_assoc, step_cmds_app, C1.
  split; [done|]. split; [lia|]. intros Hr. rewrite (R2 Hr). lia.
Qed.

Lemma scan_steps_cmds fuel range w r w' :
  scan_steps E fuel range w = Some (r, w') ->
  exists new,
    events w' = new ++ events w
    /\ (step_cmds new <= length range)%nat
    /\ (r = Ret tt -> step_cmds new = length range).
Proof.
  revert w. induction range as [|step range IH]; intros w; cbn [scan_steps].
  - intros [= <- <-]. by exists [].
  - intros H.
    apply bind_inv in H as [([] & w1 & H1 & H)|(e & H1 & ->)].
    + apply scan_step_cmds in H1 as (n1 & E1 & C1 & R1).
      apply IH in H as (n2 & E2 & C2 & R2).
      exists (n2 ++ n1). rewrite E2, E1, app_assoc, step_cmds_app.
      split; [done|]. cbn [length]. split; [lia|].
      intros Hr. rewrite (R2 Hr), (R1 eq_refl). lia.
    + apply scan_step_cmds in H1 as (n1 & E1 & C1 & _).
      exists n1. split; [done|]. cbn [length]. split; [lia|discriminate].
Qed.

(** The sampling of a step never ends while the sensor has no reading and
    the user does not interrupt. *)
Lemma sample_starves fuel rot seen k w :
  (forall history, available E history = false) ->
  (forall history, interrupt E history = false) ->
  (k < scans_per_step)%nat ->
  sample E fuel rot seen k w = None.
Proof.
  intros Hav Hint Hk. revert w. induction fuel as [|fuel IH]; intros w.
  - rewrite sample_O. by destruct (Nat.ltb_spec k scans_per_step); [|lia].
  - rewrite sample_S. destruct (Nat.ltb_spec k scans_per_step); [|lia].
    rewrite (bind_ret_eq _ _ _ _ _ (act_quiet E LidarAvailable w
                                       (or_intror (Hint _)))).
    set (w1 := {| events := LidarAvailable :: events w; pending := pending w |}).
    rewrite (bind_ret_eq _ _ w1 false w1); [|unfold ask; by rewrite Hav].
    cbn [negb].
    rewrite (bind_ret_eq _ _ _ _ _ (act_quiet E (Sleep 10) w1
                                       (or_intror (Hint _)))).
    apply IH.
Qed.

End Counting.

(** ** Rows, step commands and the stage *)

Section Stage.
Import Scan.
Local Open Scope R_scope.

Lemma bind_none {A B} (m : M A) (k : A -> M B) w :
  m w = None -> (m ≫= k) w = None.
Proof. intros H. unfold mbind, M_bind. by rewrite H. Qed.

Lemma setup_quiet (E : env) :
  connect_ok E = true ->
  (forall history, interrupt E history = false) ->
  setup E start = Some (Ret tt, armed).
Proof.
  intros Hc Hint. unfold setup, send_motor_cmd. rewrite Hc.
  assert (Hact : forall a l,
            act E a {| events := l; pending := true |}
            = Some (Ret tt, {| events := a :: l; pending := true |})).
  { intros a l. rewrite act_quiet; [reflexivity|]. right. apply Hint. }
  rewrite (bind_ret_eq _ _ _ _ _ (Hact LidarConnect [])).
  rewrite (bind_ret_eq _ _ _ tt _ eq_refl).
  rewrite (bind_ret_eq _ _ _ _ _ (Hact LidarStartScan _)).
  rewrite (bind_ret_eq _ _ _ _ _ (Hact (Sleep 2000) _)).
  rewrite (bind_ret_eq _ _ _ tt
             {| events := [MotorReadline; Sleep 50; MotorWrite "R"; Sleep 2000;
                           LidarStartScan; LidarConnect];
                pending := true |}).
  - rewrite (bind_ret_eq _ _ _ _ _ (Hact CsvOpen _)). apply Hact.
  - rewrite (bind_ret_eq _ _ _ _ _ (Hact (MotorWrite "R") _)).
    rewrite (bind_ret_eq _ _ _ _ _ (Hact (Sleep 50) _)). apply Hact.
Qed.

(** X15. Oversampling at most doubles the log: whatever the sensor returns
    and however the step ends, one rotation step writes at most
    [180 * scans_per_step = 360] rows. *)
Theorem step_writes_at_most_360_rows (E : env) (fuel step : nat) (w : world)
    (r : result unit) (w' : world) :
  scan_step E fuel step w = Some (r, w') ->
  exists new,
    events w' = new ++ events w /\ (length (pairs_of new) <= 360)%nat.
Proof.
  unfold scan_step. intros H.
  apply bind_inv in H as [([] & w1 & H1 & H)|(e & H1 & ->)].
  - apply sample_count in H1 as (n1 & E1 & L1).
    assert (Htail : exists n2, events w' = n2 ++ events w1 /\ pairs_of n2 = []).
    { apply bind_inv in H as [([] & w2 & H2 & H)|(e & H2 & _)].
      - apply send_motor_cmd_no_pair in H2 as (n2 & E2 & P2).
        apply act_no_pair in H as (n3 & E3 & P3); [|done].
        exists (n3 ++ n2). rewrite E3, E2, app_assoc, pairs_of_app, P2, P3. done.
      - by apply send_motor_cmd_no_pair in H2. }
    destruct Htail as (n2 & E2 & P2).
    exists (n2 ++ n1). rewrite E2, E1, app_assoc, pairs_of_app, P2.
    split; [done|]. cbn [app]. unfold scans_per_step in L1. lia.
  - apply sample_count in H1 as (n1 & E1 & L1).
    exists n1. split; [done|]. unfold scans_per_step in L1. lia.
Qed.

Lemma step_writes_at_most_360_rows_witness :
  exists w' new,
    scan_step steady 2 0 start = Some (Ret tt, w')
    /\ events w' = new ++ events start
    /\ (length (pairs_of new) <= 360)%nat.
Proof.
  assert (Hrun : exists w', scan_step steady 2 0 start = Some (Ret tt, w'))
    by (eexists; vm_compute; reflexivity).
  destruct Hrun as [w' Hrun].
  destruct (step_writes_at_most_360_rows steady 2 0 start _ w' Hrun)
    as (new & He & Hlen).
  exists w', new. repeat split; assumption.
Defined.

(** X16. A scan that completes has told the stage to advance exactly 400
    times, half a turn at [step_angle = 180 / 400] per command; a scan cut
    short has sent at most 400 step commands. *)
Theorem completed_scan_advances_400_steps (E : env) (fuel : nat) (w : world)
    (r : result unit) (w' : world) :
  scan_loop E fuel w = Some (r, w') ->
  exists new,
    events w' = new ++ events w
    /\ (step_cmds new <= 400)%nat
    /\ (r = Ret tt -> step_cmds new = 400%nat)
    /\ INR 400 * step_angle = 180.
Proof.
  unfold scan_loop. intros H.
  apply scan_steps_cmds in H as (new & He & Hle & Heq).
  rewrite length_seq in Hle, Heq. exists new.
  split; [exact He|]. split; [exact Hle|]. split; [exact Heq|].
  unfold step_angle, steps. field. apply not_0_INR. lia.
Qed.

Lemma completed_scan_advances_400_steps_witness :
  exists w' new,
    scan_loop steady 2 armed = Some (Ret tt, w')
    /\ events w' = new ++ events armed
    /\ step_cmds new = 400%nat.
Proof.
  assert (Hlen : (180 <= length (repeat 100%Z 180))%nat)
    by (rewrite repeat_length; lia).
  destruct (scan_steps_completes steady (repeat 100%Z 180) 2 (seq 0 steps)
              armed (fun _ _ _ => eq_refl) (fun _ => eq_refl)
              (fun _ => eq_refl) Hlen (le_n 2) (or_intror eq_refl))
    as (w' & Hrun & _).
  destruct (completed_scan_advances_400_steps steady 2 armed _ w' Hrun)
    as (new & He & _ & Heq & _).
  exists w', new. split; [exact Hrun|]. split; [exact He|]. by apply Heq.
Defined.

(** X17. The polling loop has no timeout: when the sensor never reports a
    reading and the user does not interrupt, the script is still polling in
    its first step after any number of iterations, and never reaches the
    cleanup. *)
Theorem scan_waits_forever_for_the_sensor (E : env) :
  connect_ok E = true ->
  (forall history, available E history = false) ->
  (forall history, interrupt E history = false) ->
  forall fuel, script E fuel start = None.
Proof.
  intros Hc Hav Hint fuel. unfold script.
  rewrite (bind_ret_eq _ _ _ _ _ (setup_quiet E Hc Hint)).
  unfold try_finally.
  assert (Hloop : scan_loop E fuel armed = None).
  { unfold scan_loop. change (seq 0 steps) with (0%nat :: seq 1 399).
    cbn [scan_steps]. apply bind_none. unfold scan_step. apply bind_none.
    apply sample_starves; [exact Hav|exact Hint|]. unfold scans_per_step. lia. }
  by rewrite Hloop.
Qed.

Lemma scan_waits_forever_for_the_sensor_witness :
  connect_ok starved = true
  /\ (forall history, available starved history = false)
  /\ (forall history, interrupt starved history = false)
  /\ script starved 1000 start = None.
Proof.
  split; [reflexivity|]. split; [reflexivity|]. split; [reflexivity|].
  exact (scan_waits_forever_for_the_sensor starved eq_refl
           (fun _ => eq_refl) (fun _ => eq_refl) 1000%nat).
Defined.

End Stage.

(** ** Rotation tags *)

Section RotationTags.
Import Scan.
Local Open Scope R_scope.

Lemma synced_no_rows l :
  Forall (fun a => pair_of a = None) l -> forall n, synced_from n l.
Proof.
  induction 1 as [|a l Ha _ IH]; intros n; [exact I|].
  destruct a; cbn in Ha |- *; try apply IH; [|discriminate].
  destruct (String.eqb cmd "C"); apply IH.
Qed.

Lemma synced_flat n l :
  Forall (fun a => is_step_cmd a = false
                   /\ forall q angle d rot,
                        a = CsvWriteRow q angle d rot ->
                        rot = INR n * step_angle) l ->
  synced_from n l.
Proof.
  induction 1 as [|a l [Hc Hr] _ IH]; [exact I|].
  destruct a; cbn in Hc |- *; try exact IH.
  - by rewrite Hc.
  - split; [by eapply Hr|exact IH].
Qed.

Lemma synced_app n l1 l2 :
  synced_from n l1 -> synced_from (n + step_cmds l1) l2 ->
  synced_from n (l1 ++ l2).
Proof.
  revert n. induction l1 as [|a l1 IH]; intros n H1 H2.
  - by rewrite Nat.add_0_r in H2.
  - assert (Hother : is_step_cmd a = false ->
                     step_cmds (a :: l1) = step_cmds l1).
    { intros Ha. unfold step_cmds. rewrite filter_cons_False; [done|].
      by rewrite Ha. }
    destruct a; cbn [app synced_from] in H1 |- *;
      try (rewrite (Hother eq_refl) in H2; by apply IH).
    + destruct (String.eqb cmd "C") eqn:Hc.
      * apply IH; [exact H1|].
        replace (S n + step_cmds l1)%nat
          with (n + step_cmds (MotorWrite cmd :: l1))%nat; [exact H2|].
        unfold step_cmds. rewrite filter_cons_True; [cbn; lia|exact Hc].
      * rewrite (Hother Hc) in H2. by apply IH.
    + destruct H1 as [Hr H1]. split; [exact Hr|].
      rewrite (Hother eq_refl) in H2. by apply IH.
Qed.

Lemma step_cmds_rev l : step_cmds (rev l) = step_cmds l.
Proof.
  induction l as [|a l IH]; [reflexivity|].
  cbn [rev]. rewrite step_cmds_app, IH.
  change (a :: l) with ([a] ++ l). rewrite step_cmds_app. lia.
Qed.

Lemma scan_step_synced (E : env) fuel step w r w' :
  scan_step E fuel step w = Some (r, w') ->
  exists new, events w' = new ++ events w /\ synced_from step (rev new).
Proof.
  unfold scan_step. intros H.
  set (Q := fun a : action =>
              is_step_cmd a = false
              /\ forall q angle d rot,
                   a = CsvWriteRow q angle d rot ->
                   rot = INR step * step_angle).
  assert (Hs : sound Q (sample E fuel (INR step * step_angle) ∅ 0)).
  { apply sound_sample_gen; try (split; [reflexivity|discriminate]).
    intros angle d _ _. split; [reflexivity|]. by intros ? ? ? ? [= _ _ _ <-]. }
  assert (Hm : sound (fun a => pair_of a = None)
                 (send_motor_cmd E "C";; act E (Sleep 50))).
  { unfold send_motor_cmd.
    repeat (apply sound_bind; [|intros _]); by apply sound_act. }
  apply bind_inv in H as [([] & w1 & H1 & H)|(e & H1 & ->)].
  - destruct (Hs _ _ _ H1) as ((n1 & E1 & F1) & _).
    destruct (Hm _ _ _ H) as ((n2 & E2 & F2) & _).
    exists (n2 ++ n1). rewrite E2, E1, app_assoc. split; [done|].
    rewrite rev_app_distr. apply synced_app.
    + apply synced_flat. by apply Forall_rev.
    + apply synced_no_rows. by apply Forall_rev.
  - destruct (Hs _ _ _ H1) as ((n1 & E1 & F1) & _).
    exists n1. split; [done|]. apply synced_flat. by apply Forall_rev.
Qed.

Lemma scan_steps_synced (E : env) fuel m : forall s w r w',
  scan_steps E fuel (seq s m) w = Some (r, w') ->
  exists new, events w' = new ++ events w /\ synced_from s (rev new).
Proof.
  induction m as [|m IH]; intros s w r w'; cbn [seq scan_steps].
  - intros [= <- <-]. by exists [].
  - intros H. apply bind_inv in H as [([] & w1 & H1 & H)|(e & H1 & ->)].
    + destruct (scan_step_synced _ _ _ _ _ _ H1) as (n1 & E1 & S1).
      destruct (scan_step_cmds _ _ _ _ _ _ H1) as (n1' & E1' & _ & C1).
      assert (n1' = n1) as -> by (apply (app_inv_tail (events w)); congruence).
      apply IH in H as (n2 & E2 & S2).
      exists (n2 ++ n1). rewrite E2, E1, app_assoc. split; [done|].
      rewrite rev_app_distr. apply synced_app; [exact S1|].
      rewrite step_cmds_rev, (C1 eq_refl).
      by replace (s + 1)%nat with (S s) by lia.
    + by apply scan_step_synced in H1.
Qed.

(** X18. The rotation tag of a row is the position of the stage: read in the
    order of the calls, every row the loop writes carries [step_angle] times
    the number of step commands sent to the motor before it, whatever the
    sensor returns and however the loop ends. *)
Theorem rotation_tags_follow_step_commands (E : env) (fuel : nat) (w : world)
    (r : result unit) (w' : world) :
  scan_loop E fuel w = Some (r, w') ->
  exists new, events w' = new ++ events w /\ synced_from 0 (rev new).
Proof. unfold scan_loop. apply scan_steps_synced. Qed.

Lemma rotation_tags_follow_step_commands_witness :
  exists w' new,
    scan_loop ctrl_c_during_step 2 armed = Some (Raise KeyboardInterrupt, w')
    /\ events w' = new ++ events armed
    /\ synced_from 0 (rev new).
Proof.
  assert (Hrun : exists w', scan_loop ctrl_c_during_step 2 armed
                            = Some (Raise KeyboardInterrupt, w'))
    by (eexists; vm_compute; reflexivity).
  destruct Hrun as [w' Hrun].
  destruct (rotation_tags_follow_step_commands ctrl_c_during_step 2 armed
              _ w' Hrun) as (new & He & Hs).
  exists w', new. repeat split; assumption.
Defined.

End RotationTags.

(** ** The polling example *)

Section PollingExample.
Import Scan LidarExample.

Lemma poll_starves (E : env) fuel w :
  (forall history, interrupt E history = false) ->
  poll E fuel w = None.
Proof.
  intros Hint. revert w. induction fuel as [|fuel IH]; intros w; [reflexivity|].
  cbn [poll].
  rewrite (bind_ret_eq _ _ _ _ _ (act_quiet E LidarAvailable w (or_intror (Hint _)))).
  set (w1 := {| events := LidarAvailable :: events w; pending := pending w |}).
  rewrite (bind_ret_eq _ _ w1 (available E (events w1)) w1 eq_refl).
  destruct (available E (events w1)).
  - rewrite (bind_ret_eq _ _ w1 tt
               {| events := LidarGetData :: events w1; pending := pending w1 |}).
    + rewrite (bind_ret_eq _ _ _ _ _ (act_quiet E (Sleep 100) _ (or_intror (Hint _)))).
      apply IH.
    + rewrite (bind_ret_eq _ _ _ _ _ (act_quiet E LidarGetData w1 (or_intror (Hint _)))).
      reflexivity.
  - rewrite (bind_ret_eq _ _ w1 tt w1 eq_refl).
    rewrite (bind_ret_eq _ _ _ _ _ (act_quiet E (Sleep 100) _ (or_intror (Hint _)))).
    apply IH.
Qed.



(** X19. The example has no exit of its own: without a keyboard interrupt
    its loop is still polling after any number of iterations, so
    [stop_scan] and [disconnect] are never reached. *)
Theorem example_runs_until_interrupted (E : env) :
  (forall history, interrupt E history = false) ->
  forall fuel, LidarExample.script E fuel start = None.
Proof.
  intros Hint fuel. unfold LidarExample.script.
  rewrite (bind_ret_eq _ _ _ _ _ (act_quiet E LidarConnect start (or_intror (Hint _)))).
  rewrite (bind_ret_eq _ _ _ _ _ (act_quiet E LidarStartScan _ (or_intror (Hint _)))).
  apply bind_none. unfold except_KeyboardInterrupt.
  by rewrite poll_starves.
Qed.

Lemma example_runs_until_interrupted_witness :
  (forall history, interrupt steady history = false)
  /\ LidarExample.script steady 1000 start = None.
Proof.
  split; [reflexivity|].
  exact (example_runs_until_interrupted steady (fun _ => eq_refl) 1000%nat).
Defined.



End PollingExample.
